(** * classic-server: the server core of [classicserver/server.py]

    A shallow embedding of [ClassicServer]: the player registry
    ([add_player], [kick_player], [_disconnect]), [broadcast],
    [load_world], [save_world], [generate_salt] and one pass of the
    keep-alive loop, with the properties of the specification stated
    over it.

    Python dictionaries are kept as association lists in insertion
    order, because [broadcast] iterates over [self._players] and the
    order decides who is reached before an exception escapes.  Python
    exceptions are an outcome next to the ordinary result, and the
    mutable server object is threaded through every call, so that the
    state a raised exception leaves behind can be inspected. *)

From Stdlib Require Import ZArith List String Ascii Bool Arith Lia.
Import ListNotations.

Set Implicit Arguments.

Local Open Scope string_scope.

(** ** Decidable equality on dictionary keys *)

Class EqDec (K : Type) := eq_dec : forall x y : K, {x = y} + {x <> y}.

#[export] Instance Z_EqDec : EqDec Z := Z.eq_dec.
#[export] Instance nat_EqDec : EqDec nat := Nat.eq_dec.
#[export] Instance string_EqDec : EqDec string := string_dec.

#[export] Instance prod_EqDec {A B} `{EqDec A} `{EqDec B} : EqDec (A * B).
Proof. intros [a b] [a' b']. destruct (eq_dec a a'), (eq_dec b b'); subst; (now left) || (right; congruence). Defined.

#[export] Instance option_EqDec {A} `{EqDec A} : EqDec (option A).
Proof. intros [a|] [a'|]; try (now left); try (right; congruence). destruct (eq_dec a a'); subst; (now left) || (right; congruence). Defined.

(** ** Python dictionaries, in insertion order *)

Module Dict.
Section Defs.
Context {K V : Type} `{EqDec K}.

Definition dict := list (K * V).

Definition empty : dict := [].

(** [d.get(k)] *)
Fixpoint get (d : dict) (k : K) : option V :=
  match d with
  | [] => None
  | (k', v) :: d' => if eq_dec k k' then Some v else get d' k
  end.

(** [k in d] *)
Definition contains (d : dict) (k : K) : bool :=
  match get d k with Some _ => true | None => false end.

(** [d[k] = v]: an existing key keeps its place, a new one goes last. *)
Fixpoint set (d : dict) (k : K) (v : V) : dict :=
  match d with
  | [] => [(k, v)]
  | (k', v') :: d' => if eq_dec k k' then (k', v) :: d' else (k', v') :: set d' k v
  end.

(** The dictionary without key [k]. *)
Fixpoint remove (d : dict) (k : K) : dict :=
  match d with
  | [] => []
  | (k', v) :: d' => if eq_dec k k' then remove d' k else (k', v) :: remove d' k
  end.

(** [del d[k]]: [None] stands for [KeyError]. *)
Definition del (d : dict) (k : K) : option dict :=
  if contains d k then Some (remove d k) else None.

Definition keys (d : dict) : list K := map fst d.
Definition values (d : dict) : list V := map snd d.
Definition len (d : dict) : Z := Z.of_nat (List.length d).
End Defs.
Arguments dict : clear implicits.
End Dict.

Import Dict.

(** ** Exceptions and outcomes *)

Inductive exn : Type :=
| KeyError
| ValueError (msg : string)
| IOError
| BrokenPipeError
| FileNotFoundError
| TypeError
| OtherError (cls : string).

(** [isinstance(e, IOError)]: in Python 3 [IOError] is [OSError], of which
    [BrokenPipeError] and [FileNotFoundError] are subclasses. *)
Definition is_IOError (e : exn) : bool :=
  match e with
  | IOError | BrokenPipeError | FileNotFoundError => true
  | _ => false
  end.

Definition is_FileNotFoundError (e : exn) : bool :=
  match e with FileNotFoundError => true | _ => false end.

Definition is_ValueError (e : exn) : bool :=
  match e with ValueError _ => true | _ => false end.

(** What a call does: it returns, it raises, or the model ran out of the
    recursion budget it was given ([OutOfFuel], shown below never to happen
    for the entry points). *)
Inductive outcome (A : Type) : Type :=
| Ok (a : A)
| Raise (e : exn)
| OutOfFuel.
Arguments Ok {A} a.
Arguments Raise {A} e.
Arguments OutOfFuel {A}.

(** ** Data model *)

(** A socket address, [(host, port)]. *)
Definition Address : Type := (string * Z)%type.

(** What [get_address()] returns: an address, or [None]. *)
Definition addr_t : Type := option Address.

(** [not address] *)
Definition falsy (a : addr_t) : bool :=
  match a with None => true | Some _ => false end.

(** Modelled from the spec: the [Connection] class is not part of the
    sources at hand.  Section 4.1: a session has "a stable session identity
    usable as a map key", so the address is a field that never changes;
    [conn_sock] stands for the underlying socket handle. *)
Record Connection : Type := mkConnection {
  conn_sock : nat;
  conn_address : addr_t
}.

Definition get_address (c : Connection) : addr_t := conn_address c.

(** Modelled from the spec: the [Player] class is not part of the sources
    at hand; the fields are the arguments of the constructor call in
    [add_player]. *)
Record Player : Type := mkPlayer {
  player_id : Z;
  connection : Connection;
  coordinates : list Z;
  name : string;
  user_type : Z
}.

(** The packets the server core makes; the codec is outside the core, so a
    packet stands for the bytes [make] returns. *)
Inductive Packet : Type :=
| MessagePacket (player_id : Z) (message : string)
| PingPacket
| DespawnPlayerPacket (player_id : Z)
| DisconnectPlayerPacket (reason : string).

(** The transport world the sessions talk to: which sockets are broken, which
    were closed, and what was queued on each, oldest first. *)
Record Net : Type := mkNet {
  net_broken : list nat;
  net_closed : list nat;
  net_sent : list (nat * Packet)
}.

Record Server : Type := mkServer {
  _connections : dict addr_t Connection;
  _players : dict Z Player;
  _players_by_address : dict addr_t Player;
  _player_id : Z;
  _op_players : list string;
  _max_players : Z;
  _salt : string;
  net : Net
}.

Record Config : Type := mkConfig {
  cfg_ops : list string;
  cfg_max_players : Z
}.

(** The registry as the class attributes and [__init__] leave it. *)
Definition fresh (config : Config) : Server :=
  {| _connections := empty;
     _players := empty;
     _players_by_address := empty;
     _player_id := 0;
     _op_players := cfg_ops config;
     _max_players := cfg_max_players config;
     _salt := "";
     net := mkNet [] [] [] |}.

(** [__init__]: the capacity check. *)
Definition init (config : Config) : outcome Server :=
  if (cfg_max_players config >? 255)%Z
  then Raise (ValueError "The player limit is up to 255 excluding the admin slot.")
  else Ok (fresh config).

(** Field updates. *)
Definition with_connections (f : dict addr_t Connection -> dict addr_t Connection) (s : Server) : Server :=
  mkServer (f (_connections s)) (_players s) (_players_by_address s)
           (_player_id s) (_op_players s) (_max_players s) (_salt s) (net s).

Definition with_players (f : dict Z Player -> dict Z Player) (s : Server) : Server :=
  mkServer (_connections s) (f (_players s)) (_players_by_address s)
           (_player_id s) (_op_players s) (_max_players s) (_salt s) (net s).

Definition with_players_by_address (f : dict addr_t Player -> dict addr_t Player) (s : Server) : Server :=
  mkServer (_connections s) (_players s) (f (_players_by_address s))
           (_player_id s) (_op_players s) (_max_players s) (_salt s) (net s).

Definition with_player_id (i : Z) (s : Server) : Server :=
  mkServer (_connections s) (_players s) (_players_by_address s)
           i (_op_players s) (_max_players s) (_salt s) (net s).

Definition with_net (f : Net -> Net) (s : Server) : Server :=
  mkServer (_connections s) (_players s) (_players_by_address s)
           (_player_id s) (_op_players s) (_max_players s) (_salt s) (f (net s)).

Definition with_salt (salt : string) (s : Server) : Server :=
  mkServer (_connections s) (_players s) (_players_by_address s)
           (_player_id s) (_op_players s) (_max_players s) salt (net s).

(** ** The state-and-exception monad of the server's methods *)

Definition M (A : Type) : Type := Server -> Server * outcome A.

Definition ret {A} (a : A) : M A := fun s => (s, Ok a).

Definition raise {A} (e : exn) : M A := fun s => (s, Raise e).

Definition bind {A B} (m : M A) (k : A -> M B) : M B :=
  fun s =>
    match m s with
    | (s', Ok a) => k a s'
    | (s', Raise e) => (s', Raise e)
    | (s', OutOfFuel) => (s', OutOfFuel)
    end.

(** [try: m  except <classes>: handler] *)
Definition try_except {A} (m : M A) (catches : exn -> bool) (handler : M A) : M A :=
  fun s =>
    match m s with
    | (s', Raise e) => if catches e then handler s' else (s', Raise e)
    | r => r
    end.

Declare Scope server_scope.
Delimit Scope server_scope with server.
Notation "x <- m ;; k" := (bind m (fun x => k))
  (at level 61, m at next level, right associativity) : server_scope.
Notation "m ;; k" := (bind m (fun _ => k))
  (at level 61, right associativity) : server_scope.
Local Open Scope server_scope.

(** [for x in xs: body(x)] *)
Fixpoint for_each {A} (body : A -> M unit) (xs : list A) : M unit :=
  match xs with
  | [] => ret tt
  | x :: xs' => body x ;; for_each body xs'
  end.

(** ** The transport session *)

Definition is_broken (s : Server) (c : Connection) : bool :=
  existsb (Nat.eqb (conn_sock c)) (net_broken (net s)).

Definition net_push (c : Connection) (data : Packet) (n : Net) : Net :=
  mkNet (net_broken n) (net_closed n) (net_sent n ++ [(conn_sock c, data)]).

Definition net_close (c : Connection) (n : Net) : Net :=
  mkNet (net_broken n)
        (if existsb (Nat.eqb (conn_sock c)) (net_closed n)
         then net_closed n else net_closed n ++ [conn_sock c])
        (net_sent n).

Definition net_break (c : Connection) (n : Net) : Net :=
  mkNet (conn_sock c :: net_broken n) (net_closed n) (net_sent n).

(** Modelled from the spec: [Connection.send] is not part of the sources at
    hand.  Section 4.1: it "appends to an internal outbound queue" and "fails
    with a TransportError if the underlying connection is broken". *)
Definition send (c : Connection) (data : Packet) : M unit :=
  fun s =>
    if is_broken s c then (s, Raise BrokenPipeError)
    else (with_net (net_push c data) s, Ok tt).

(** Modelled from the spec: [Connection.close] is not part of the sources at
    hand.  Section 4.1: it "releases the socket, idempotent". *)
Definition close (c : Connection) : M unit :=
  fun s => (with_net (net_close c) s, Ok tt).

(** ** Registry primitives *)

(** [del self._connections[address]] *)
Definition del_connections (address : addr_t) : M unit :=
  fun s =>
    match del (_connections s) address with
    | Some d => (with_connections (fun _ => d) s, Ok tt)
    | None => (s, Raise KeyError)
    end.

(** [del self._players_by_address[address]] *)
Definition del_players_by_address (address : addr_t) : M unit :=
  fun s =>
    match del (_players_by_address s) address with
    | Some d => (with_players_by_address (fun _ => d) s, Ok tt)
    | None => (s, Raise KeyError)
    end.

(** [del self._players[player_id]] *)
Definition del_players (player_id : Z) : M unit :=
  fun s =>
    match del (_players s) player_id with
    | Some d => (with_players (fun _ => d) s, Ok tt)
    | None => (s, Raise KeyError)
    end.

(** [self._players[player_id]] *)
Definition get_player (player_id : Z) : M Player :=
  fun s =>
    match get (_players s) player_id with
    | Some p => (s, Ok p)
    | None => (s, Raise KeyError)
    end.

(** [self._players_by_address[address]] *)
Definition get_player_by_address (address : addr_t) : M Player :=
  fun s =>
    match get (_players_by_address s) address with
    | Some p => (s, Ok p)
    | None => (s, Raise KeyError)
    end.

Definition is_op (s : Server) (player_name : string) : bool :=
  if in_dec string_dec player_name (_op_players s) then true else false.

(** [range(n)] *)
Definition range (n : nat) : list Z := map Z.of_nat (seq 0 n).

(** ** broadcast and _disconnect *)

(** The body of [broadcast]; [disconnect] is the [self._disconnect] it calls
    back into when a send fails. *)
Definition broadcast_with (disconnect : Connection -> M unit)
    (data : Packet) (ignore : option (list addr_t)) : M unit :=
  let ignore :=
    match ignore with
    | None | Some [] => []
    | Some l => l
    end in
  fun s =>
    for_each
      (fun player =>
         let connection := connection player in
         if in_dec eq_dec (get_address connection) ignore then ret tt
         else try_except (send connection data) is_IOError (disconnect connection))
      (values (_players s)) s.

(** ["Disconnecting connection %s" % connection.get_address()], the argument
    of the [logging.debug] call in [_disconnect].  The keys of
    [self._connections] are the [(host, port)] pairs that [accept()] returns,
    and [get_address()] gives the key back; a tuple on the right of [%] is
    the list of arguments, so the two items meet one [%s] and the operator
    raises [TypeError] ("not all arguments converted during string
    formatting") before [logging.debug] is entered.  The other log lines of
    the server core format one string, or two strings under two [%s], and
    cannot fail; they are left out. *)
Definition format_address (address : addr_t) : M string :=
  match address with
  | Some (_, _) => raise TypeError
  | None => ret "Disconnecting connection None"
  end.

(** [_disconnect], with a bound on the depth of the calls
    [_disconnect] -> [broadcast] -> [_disconnect]. *)
Fixpoint disconnect_f (fuel : nat) (connection : Connection) : M unit :=
  match fuel with
  | O => fun s => (s, OutOfFuel)
  | S fuel' =>
      let address := get_address connection in
      if falsy address then ret tt
      else
        format_address (get_address connection) ;;
        try_except (close connection) is_IOError (ret tt) ;;
        player <- (fun s =>
                     if contains (_players_by_address s) address
                     then (p <- get_player_by_address address ;; ret (Some p)) s
                     else ret None s) ;;
        del_connections address ;;
        match player with
        | Some player =>
            del_players_by_address address ;;
            del_players (player_id player) ;;
            broadcast_with (disconnect_f fuel')
              (DespawnPlayerPacket (player_id player)) None ;;
            broadcast_with (disconnect_f fuel')
              (MessagePacket 0 ("&e" ++ name player ++ "&f has quit!")) None
        | None => ret tt
        end
  end.

(** The entry point.  Every nested [_disconnect] that gets as far as its
    broadcasts has removed a player first, so one more than the number of
    players is depth enough; as the body stands, with the log line ahead of
    everything else, any depth above zero gives the same result (lemma
    [disconnect_f_irrelevant] below). *)
Definition _disconnect (connection : Connection) : M unit :=
  fun s => disconnect_f (S (List.length (_players s))) connection s.

Definition broadcast (data : Packet) (ignore : option (list addr_t)) : M unit :=
  broadcast_with _disconnect data ignore.

(** ** Notions for [add_player] and [broadcast] *)

(** The player entered in both player maps, as [add_player] does. *)
Definition register (p : Player) (s : Server) : Server :=
  with_players_by_address (fun d => set d (get_address (connection p)) p)
    (with_players (fun d => set d (player_id p) p) s).

(** The data queued, in order, for the players of a list that the ignore
    list does not exclude. *)
Definition deliver (data : Packet) (ignore : list addr_t) (ps : list Player) (n : Net) : Net :=
  fold_left
    (fun n p =>
       if in_dec eq_dec (get_address (connection p)) ignore then n
       else net_push (connection p) data n)
    ps n.

(** The sessions of all the players of a list can be sent to. *)
Definition healthy (s : Server) (ps : list Player) : bool :=
  forallb (fun p => negb (is_broken s (connection p))) ps.

(** ** add_player and kick_player *)

Definition add_player (connection : Connection) (coordinates : list Z)
    (name : string) : M (option Z) :=
  fun s =>
    if (len (_players s) <? _max_players s)%Z || is_op s name then
      (player_id <-
         (fun s =>
            let player_id := _player_id s in
            if contains (_players s) (_player_id s) then
              match find (fun i => negb (contains (_players s) i)) (range 256) with
              | Some i => (with_player_id i s, Ok i)
              | None => (s, Raise (ValueError "No more ID's left"))
              end
            else (with_player_id (_player_id s + 1)%Z s, Ok player_id)) ;;
       let player :=
         mkPlayer player_id connection coordinates name
                  (if is_op s name then 100 else 0)%Z in
       (fun s =>
          (with_players_by_address
             (fun d => set d (get_address connection) player)
             (with_players (fun d => set d player_id player) s), Ok tt)) ;;
       ret (Some player_id)) s
    else
      (send connection (DisconnectPlayerPacket "Server full") ;;
       ret None) s.

Definition kick_player (player_id : Z) (reason : string) : M unit :=
  player <- get_player player_id ;;
  send (connection player) (DisconnectPlayerPacket reason) ;;
  del_players player_id ;;
  broadcast (MessagePacket 0 ("Player " ++ name player ++ " kicked, " ++ reason)) None ;;
  _disconnect (connection player).

(** ** The environment: accepted sockets and failing transports *)

(** [_connection_thread]: [self._connections[addr] = Connection(self, addr, sock)] *)
Definition accept (addr : Address) (sock : nat) : M unit :=
  fun s =>
    (with_connections (fun d => set d (Some addr) (mkConnection sock (Some addr))) s, Ok tt).

(** The transport of a session breaks: from now on its sends fail. *)
Definition break_transport (c : Connection) : M unit :=
  fun s => (with_net (net_break c) s, Ok tt).

Inductive Op : Type :=
| Accept (addr : Address) (sock : nat)
| Break (c : Connection)
| AddPlayer (c : Connection) (coordinates : list Z) (name : string)
| KickPlayer (player_id : Z) (reason : string)
| Disconnect (c : Connection)
| Broadcast (data : Packet) (ignore : option (list addr_t)).

Definition run_op (o : Op) (s : Server) : Server :=
  match o with
  | Accept addr sock => fst (accept addr sock s)
  | Break c => fst (break_transport c s)
  | AddPlayer c coords name => fst (add_player c coords name s)
  | KickPlayer i reason => fst (kick_player i reason s)
  | Disconnect c => fst (_disconnect c s)
  | Broadcast data ignore => fst (broadcast data ignore s)
  end.

(** The server after a sequence of operations, whatever each returned or
    raised. *)
Definition run (ops : list Op) (s : Server) : Server :=
  fold_left (fun s o => run_op o s) ops s.

(** ** Consistency of the three registry maps *)

(** The invariant of section 3 in the words of the claim: every address of
    the address index leads to a player that the ID map holds under its ID
    and whose address is a key of the connection table; no two entries of
    the ID map share an address; no two share a player ID. *)
Definition registry_consistent (s : Server) : Prop :=
  (forall a p, get (_players_by_address s) a = Some p ->
     get (_players s) (player_id p) = Some p /\
     contains (_connections s) (get_address (connection p)) = true) /\
  (forall i j p q, get (_players s) i = Some p -> get (_players s) j = Some q ->
     get_address (connection p) = get_address (connection q) -> i = j) /\
  (forall i j p q, get (_players s) i = Some p -> get (_players s) j = Some q ->
     player_id p = player_id q -> i = j).

(** The inductive form of it: the two player maps are inverse views of one
    set of players, and the address index stays inside the connection table,
    whose keys are real addresses. *)
Record Consistent (s : Server) : Prop := mkConsistent {
  by_address_sound : forall a p, get (_players_by_address s) a = Some p ->
    get_address (connection p) = a /\
    get (_players s) (player_id p) = Some p /\
    contains (_connections s) a = true;
  players_sound : forall i p, get (_players s) i = Some p ->
    player_id p = i /\
    get (_players_by_address s) (get_address (connection p)) = Some p;
  connections_sound : forall a, contains (_connections s) a = true -> falsy a = false
}.

(** The runs the consistency of the registry is stated for: a player is
    added for a session that is in the connection table and has no player
    yet, and nobody is kicked. *)
Definition admissible_op (o : Op) (s : Server) : bool :=
  match o with
  | AddPlayer c _ _ =>
      contains (_connections s) (get_address c) &&
      negb (contains (_players_by_address s) (get_address c))
  | KickPlayer _ _ => false
  | _ => true
  end.

Fixpoint admissible (ops : list Op) (s : Server) : bool :=
  match ops with
  | [] => true
  | o :: ops' => admissible_op o s && admissible ops' (run_op o s)
  end.

(** The sequential counter is ahead of every ID in use. *)
Definition ids_below_counter (s : Server) : Prop :=
  (0 <= _player_id s)%Z /\
  forall i, contains (_players s) i = true -> (0 <= i < _player_id s)%Z.

(** ** Sample data for the concrete runs below *)

Definition sample_config : Config := mkConfig ["admin"] 2.

Definition sample_address (i : nat) : Address := ("10.0.0.1", 50000 + Z.of_nat i)%Z.

(** The session the accept loop makes for socket [i]. *)
Definition session (i : nat) : Connection := mkConnection i (Some (sample_address i)).

(** A server at the hard cap of 255 players with one operator name, and the
    run in which sockets [0] to [n-1] are accepted and log in one after the
    other, the first 255 as guests and the later ones as the operator. *)
Definition capped_config : Config := mkConfig ["admin"] 255.

Definition crowd (n : nat) : list Op :=
  flat_map
    (fun i => [Accept (sample_address i) i;
               AddPlayer (session i) [] (if Nat.ltb i 255 then "guest" else "admin")])
    (seq 0 n).

(** Three players, of whom the first two have lost their transports. *)
Definition two_broken : Server :=
  run [Accept (sample_address 1) 1; AddPlayer (session 1) [] "al";
       Accept (sample_address 2) 2; AddPlayer (session 2) [] "bo";
       Accept (sample_address 3) 3; AddPlayer (session 3) [] "admin";
       Break (session 1); Break (session 2)]
      (fresh sample_config).

(** ** generate_salt *)

Definition ascii_lowercase : string := "abcdefghijklmnopqrstuvwxyz".
Definition ascii_uppercase : string := "ABCDEFGHIJKLMNOPQRSTUVWXYZ".
Definition ascii_letters : string := ascii_lowercase ++ ascii_uppercase.
Definition digits : string := "0123456789".

Definition base_62 : string := ascii_letters ++ digits.

(** [c in seq] for a character and a string. *)
Fixpoint char_in (c : ascii) (seq : string) : bool :=
  match seq with
  | EmptyString => false
  | String c' seq' => Ascii.eqb c c' || char_in c seq'
  end.

(** The characters [urllib.parse.quote] never escapes: letters, digits and
    [_.-~]. *)
Definition url_always_safe (c : ascii) : bool :=
  char_in c (ascii_letters ++ digits ++ "_.-~").

Fixpoint all_chars (f : ascii -> bool) (s : string) : bool :=
  match s with
  | EmptyString => true
  | String c s' => f c && all_chars f s'
  end.

(** ["".join(chars)] *)
Fixpoint join (chars : list ascii) : string :=
  match chars with
  | [] => EmptyString
  | c :: chars' => String c (join chars')
  end.

Section Salt.

(** The state of the [random] module and its [_randbelow(n)], which returns
    an integer in [[0, n)]. *)
Variable Rng : Type.
Variable randbelow : nat -> Rng -> nat * Rng.

(** [random.choice(seq)]: [seq[_randbelow(len(seq))]]; [None] stands for the
    [IndexError] of an index out of range. *)
Definition choice (seq : string) (g : Rng) : option ascii * Rng :=
  let (i, g') := randbelow (String.length seq) g in
  (String.get i seq, g').

(** [[random.choice(seq) for _ in range(n)]] *)
Fixpoint choices (n : nat) (seq : string) (g : Rng) : option (list ascii) * Rng :=
  match n with
  | O => (Some [], g)
  | S n' =>
      match choice seq g with
      | (Some c, g') =>
          match choices n' seq g' with
          | (Some cs, g'') => (Some (c :: cs), g'')
          | (None, g'') => (None, g'')
          end
      | (None, g') => (None, g')
      end
  end.

(** [generate_salt]: the server with the new salt, or [None] had a choice
    raised. *)
Definition generate_salt (g : Rng) (s : Server) : option Server * Rng :=
  match choices 16 base_62 g with
  | (Some cs, g') => (Some (with_salt (join cs) s), g')
  | (None, g') => (None, g')
  end.

(** [get_salt] *)
Definition get_salt (s : Server) : string := _salt s.

End Salt.

(** ** load_world *)

(** What a call into a collaborator outside the core gives back. *)
Inductive result (A : Type) : Type :=
| Returns (a : A)
| Fails (e : exn).
Arguments Returns {A} a.
Arguments Fails {A} e.

Inductive LogRecord : Type :=
| LogInfo (msg : string)
| LogError (msg : string).

Section LoadWorld.

(** Modelled from the spec: the [World] class is not part of the sources at
    hand.  [from_save] is [World.from_save], which section 4.3 lets fail on
    malformed or truncated bytes; [new_world] is the default world [World()]
    makes; [read_file path] is [open(path, "rb").read()]. *)
Variable World : Type.
Variable from_save : list Byte.byte -> result World.
Variable new_world : World.
Variable read_file : string -> result (list Byte.byte).

(** [repr(ex)] and [traceback.format_exc()] *)
Variable repr : exn -> string.
Variable format_exc : exn -> string.

Record Store : Type := mkStore {
  _save_file : string;
  _world : option World;
  log : list LogRecord
}.

Definition logging (r : LogRecord) (st : Store) : Store :=
  mkStore (_save_file st) (_world st) (log st ++ [r]).

Definition with_world (w : World) (st : Store) : Store :=
  mkStore (_save_file st) (Some w) (log st).

(** The [try] block of [load_world]. *)
Definition read_save (st : Store) : result World :=
  match read_file (_save_file st) with
  | Returns save => from_save save
  | Fails ex => Fails ex
  end.

Definition load_world (st : Store) : Store * result unit :=
  match read_save st with
  | Returns w => (with_world w st, Returns tt)
  | Fails ex =>
      if is_FileNotFoundError ex then
        (with_world new_world
           (logging (LogInfo "Save file not found, creating a new one") st),
         Returns tt)
      else if is_IOError ex || is_ValueError ex then
        (with_world new_world
           (logging (LogError (format_exc ex))
              (logging (LogError ("Error during loading save file: " ++ repr ex)) st)),
         Returns tt)
      else (st, Fails ex)
  end.

End LoadWorld.

(** ** Sample collaborators for the concrete runs below *)

(** A generator of indices for [generate_salt]: a counter reduced modulo the
    bound. *)
Definition sample_randbelow (n : nat) (g : nat) : nat * nat := (g mod n, g * 31 + 7).

(** A world for [load_world]: the saved bytes it was decoded from, none for
    the default world; a decoder that rejects an empty save; a file system
    with one save file. *)
Definition sample_from_save (save : list Byte.byte) : result (list Byte.byte) :=
  match save with
  | [] => Fails (ValueError "truncated save")
  | _ => Returns save
  end.

Definition sample_read_file (path : string) : result (list Byte.byte) :=
  if string_dec path "world.save" then Returns [Byte.x01; Byte.x02]
  else if string_dec path "empty.save" then Returns []
  else Fails FileNotFoundError.

Definition sample_repr (ex : exn) : string :=
  match ex with
  | ValueError msg => "ValueError('" ++ msg ++ "')"
  | _ => "exception"
  end.

(** ** Notions for the further properties *)

(** Server [s'] has no entry that [s] has not, and the same counter, operator
    list, capacity and salt. *)
Definition only_removes (s s' : Server) : Prop :=
  (forall a c, get (_connections s') a = Some c -> get (_connections s) a = Some c) /\
  (forall i p, get (_players s') i = Some p -> get (_players s) i = Some p) /\
  (forall a p, get (_players_by_address s') a = Some p ->
               get (_players_by_address s) a = Some p) /\
  _player_id s' = _player_id s /\
  _op_players s' = _op_players s /\
  _max_players s' = _max_players s /\
  _salt s' = _salt s.

(** [address in ignore] *)
Definition listed (ignore : list addr_t) (address : addr_t) : bool :=
  if in_dec eq_dec address ignore then true else false.

(** The IDs [add_player] returned along a run, in order. *)
Fixpoint admitted (ops : list Op) (s : Server) : list Z :=
  match ops with
  | [] => []
  | o :: ops' =>
      (match o with
       | AddPlayer c coords name =>
           match snd (add_player c coords name s) with
           | Ok (Some i) => [i]
           | _ => []
           end
       | _ => []
       end ++ admitted ops' (run_op o s))%list
  end.

(** The registered players whose name is no operator's. *)
Definition guests (s : Server) : list (Z * Player) :=
  filter (fun kp => negb (is_op s (name (snd kp)))) (_players s).

(** ** One pass of the keep-alive loop *)

(** [RuntimeError("dictionary changed size during iteration")] *)
Definition RuntimeError : exn := OtherError "RuntimeError".

(** [for v in d.values(): body(v)] over the dictionary [view] finds in the
    server itself, not over a copy.  CPython's dictionary iterator remembers
    the number of entries it started with, [used], and each time it is asked
    for the next value -- the time that would end the loop included -- it
    raises [RuntimeError] when the dictionary has another size by then;
    [pos] is the position reached and [left] the number of values still to
    come. *)
Fixpoint for_each_live {K V : Type} (view : Server -> dict K V) (body : V -> M unit)
    (used pos left : nat) : M unit :=
  fun s =>
    if Nat.eqb (List.length (view s)) used then
      match left with
      | O => (s, Ok tt)
      | S left' =>
          match nth_error (values (view s)) pos with
          | Some v => (body v ;; for_each_live view body used (S pos) left') s
          | None => (s, Ok tt)
          end
      end
    else (s, Raise RuntimeError).

(** The body of the [while] loop of [_keep_alive_thread], the sleep apart. *)
Definition keep_alive_pass : M unit :=
  fun s =>
    for_each_live _connections
      (fun connection =>
         try_except (send connection PingPacket) is_IOError (_disconnect connection))
      (List.length (_connections s)) 0 (List.length (_connections s)) s.

(** A ping queued for each session of a list, in order. *)
Definition ping_all (cs : list Connection) (n : Net) : Net :=
  fold_left (fun n c => net_push c PingPacket n) cs n.

(** Every session of the connection table sits under its own address, a real
    one. *)
Definition table_sound (s : Server) : Prop :=
  forall a c, In (a, c) (_connections s) -> get_address c = a /\ falsy a = false.

(** ** save_world *)

(** The files the server reads and writes: their contents, and the paths
    that cannot be opened for writing. *)
Record Files : Type := mkFiles {
  contents : dict string (list Byte.byte);
  unwritable : list string
}.

(** [open(path, "rb").read()] *)
Definition read_from (fs : Files) (path : string) : result (list Byte.byte) :=
  match get (contents fs) path with
  | Some data => Returns data
  | None => Fails FileNotFoundError
  end.

(** [open(path, "wb")]: the file is created, or emptied if it exists. *)
Definition open_wb (fs : Files) (path : string) : result Files :=
  if in_dec string_dec path (unwritable fs) then Fails IOError
  else Returns (mkFiles (set (contents fs) path []) (unwritable fs)).

(** [f.write(data)] on the file opened at [path]. *)
Definition write_to (fs : Files) (path : string) (data : list Byte.byte) : Files :=
  mkFiles
    (set (contents fs) path
         (match get (contents fs) path with Some old => old | None => [] end ++ data)%list)
    (unwritable fs).

Section SaveWorld.

(** Modelled from the spec: [World.encode] is not part of the sources at
    hand; section 4.3: it "produces a byte sequence from the current grid". *)
Variable World : Type.
Variable encode : World -> result (list Byte.byte).

(** [save_world]: the file is opened, and so emptied, before the world is
    encoded; [self._world] is [None] until [load_world] has run. *)
Definition save_world (st : Store World) (fs : Files) : (Store World * Files) * result unit :=
  let st := logging (LogInfo "Saving the world...") st in
  match open_wb fs (_save_file st) with
  | Fails ex => ((st, fs), Fails ex)
  | Returns fs1 =>
      match _world st with
      | None => ((st, fs1), Fails (OtherError "AttributeError"))
      | Some w =>
          match encode w with
          | Fails ex => ((st, fs1), Fails ex)
          | Returns data => ((st, write_to fs1 (_save_file st) data), Returns tt)
          end
      end
  end.

End SaveWorld.

(** A codec for the sample world of [sample_from_save]: the world is its own
    bytes, and the empty world cannot be encoded. *)
Definition sample_encode (w : list Byte.byte) : result (list Byte.byte) :=
  match w with
  | [] => Fails (ValueError "empty world")
  | _ => Returns w
  end.

(** * Facts *)

(** ** Dictionaries *)

Section DictFacts.
Context {K V : Type} `{EqDec K}.
Implicit Types (d : dict K V) (k : K) (v : V).

Lemma get_remove d k k' :
  get (remove d k) k' = if eq_dec k' k then None else get d k'.
Proof.
  induction d as [|[k0 v0] d IH]; simpl.
  - now destruct (eq_dec k' k).
  - destruct (eq_dec k k0) as [->|Hk]; simpl.
    + rewrite IH. destruct (eq_dec k' k0); reflexivity.
    + rewrite IH. destruct (eq_dec k' k0) as [->|]; [|reflexivity].
      destruct (eq_dec k0 k); congruence.
Qed.

Lemma get_set d k v k' :
  get (set d k v) k' = if eq_dec k' k then Some v else get d k'.
Proof.
  induction d as [|[k0 v0] d IH]; simpl.
  - destruct (eq_dec k' k); reflexivity.
  - destruct (eq_dec k k0) as [->|Hk]; simpl.
    + destruct (eq_dec k' k0); reflexivity.
    + rewrite IH. destruct (eq_dec k' k0) as [->|]; [|reflexivity].
      destruct (eq_dec k0 k); congruence.
Qed.

Lemma get_remove_same d k : get (remove d k) k = None.
Proof. rewrite get_remove. destruct (eq_dec k k); congruence. Qed.

Lemma get_remove_other d k k' : k' <> k -> get (remove d k) k' = get d k'.
Proof. intros. rewrite get_remove. destruct (eq_dec k' k); congruence. Qed.

Lemma get_set_same d k v : get (set d k v) k = Some v.
Proof. rewrite get_set. destruct (eq_dec k k); congruence. Qed.

Lemma get_set_other d k v k' : k' <> k -> get (set d k v) k' = get d k'.
Proof. intros. rewrite get_set. destruct (eq_dec k' k); congruence. Qed.

Lemma remove_absent d k : get d k = None -> remove d k = d.
Proof.
  induction d as [|[k0 v0] d IH]; simpl; [reflexivity|].
  destruct (eq_dec k k0); [discriminate|]. intros Hg. now rewrite IH.
Qed.

Lemma contains_true d k : contains d k = true <-> exists v, get d k = Some v.
Proof.
  unfold contains. destruct (get d k) as [v|]; split; intros Hc;
    try discriminate; eauto. now destruct Hc.
Qed.

Lemma contains_false d k : contains d k = false <-> get d k = None.
Proof. unfold contains. destruct (get d k); split; congruence. Qed.

Lemma contains_remove d k k' :
  contains (remove d k) k' = true -> contains d k' = true /\ k' <> k.
Proof.
  unfold contains. rewrite get_remove. destruct (eq_dec k' k); [discriminate|].
  auto.
Qed.

Lemma length_remove_le d k : List.length (remove d k) <= List.length d.
Proof.
  induction d as [|[k0 v0] d IH]; simpl; [lia|].
  destruct (eq_dec k k0); simpl; lia.
Qed.

Lemma length_remove_lt d k :
  contains d k = true -> List.length (remove d k) < List.length d.
Proof.
  unfold contains. induction d as [|[k0 v0] d IH]; simpl; [discriminate|].
  destruct (eq_dec k k0); simpl.
  - intros _. pose proof (length_remove_le d k). lia.
  - intros Hc. apply IH in Hc. lia.
Qed.

Lemma del_Some d k d' : del d k = Some d' -> contains d k = true /\ d' = remove d k.
Proof. unfold del. destruct (contains d k); intros E; inversion E; auto. Qed.

Lemma del_None d k : del d k = None -> get d k = None.
Proof.
  unfold del. destruct (contains d k) eqn:E; [discriminate|].
  intros _. now apply contains_false.
Qed.

(** Every value of the dictionary sits under some key of it; with repeated
    keys out of the way, under the key [get] finds it at. *)
Lemma in_values_remove d k v :
  In v (values (remove d k)) -> exists k', k' <> k /\ In (k', v) d.
Proof.
  unfold values. induction d as [|[k0 v0] d IH]; simpl; [tauto|].
  destruct (eq_dec k k0) as [->|Hk]; simpl.
  - intros Hin. destruct (IH Hin) as (k' & ? & ?). eauto.
  - intros [<-|Hin]; [exists k0; split; [congruence|now left]|].
    destruct (IH Hin) as (k' & ? & ?). eauto.
Qed.

Lemma get_In d k v : get d k = Some v -> In (k, v) d.
Proof.
  induction d as [|[k0 v0] d IH]; simpl; [discriminate|].
  destruct (eq_dec k k0) as [->|]; [intros E; inversion E; now left | auto].
Qed.

Lemma in_keys_remove d k k' : In k' (keys (remove d k)) -> In k' (keys d).
Proof.
  unfold keys. induction d as [|[k0 v0] d IH]; simpl; [tauto|].
  destruct (eq_dec k k0); simpl; tauto.
Qed.

Lemma NoDup_keys_remove d k : NoDup (keys d) -> NoDup (keys (remove d k)).
Proof.
  unfold keys. induction d as [|[k0 v0] d IH]; simpl; [constructor|].
  intros Hnd. inversion Hnd as [|? ? Hnotin Hnd']; subst.
  destruct (eq_dec k k0); simpl; [now apply IH|].
  constructor; [|now apply IH].
  intros Hin. apply Hnotin. now apply (in_keys_remove d k).
Qed.

Lemma in_keys_set d k v k' : In k' (keys (set d k v)) -> k' = k \/ In k' (keys d).
Proof.
  unfold keys. induction d as [|[k0 v0] d IH]; simpl.
  - intros [<-|[]]. now left.
  - destruct (eq_dec k k0); simpl; [tauto|].
    intros [<-|Hin]; [tauto|]. destruct (IH Hin); tauto.
Qed.

Lemma NoDup_keys_set d k v : NoDup (keys d) -> NoDup (keys (set d k v)).
Proof.
  unfold keys. induction d as [|[k0 v0] d IH]; simpl.
  - intros _. constructor; [intros []|constructor].
  - intros Hnd. inversion Hnd as [|? ? Hnotin Hnd']; subst.
    destruct (eq_dec k k0) as [->|Hne]; simpl; [now constructor|].
    constructor; [|now apply IH].
    intros Hin. destruct (in_keys_set d k v k0 Hin); [congruence|contradiction].
Qed.

End DictFacts.

(** ** [_disconnect] as the code has it *)

(** [_disconnect] gets no further than the formatting of its second log
    line.  A session without an address is ignored; for every other session
    the call raises [TypeError] -- before the transport is closed and before
    any of the three maps is touched.  What follows the log line in the body
    is never run. *)
Lemma disconnect_f_S fuel c s :
  disconnect_f (S fuel) c s =
  if falsy (get_address c) then (s, Ok tt) else (s, Raise TypeError).
Proof.
  cbn [disconnect_f]. unfold get_address.
  destruct (conn_address c) as [[host port]|]; reflexivity.
Qed.


Lemma _disconnect_eq c s :
  _disconnect c s =
  if falsy (get_address c) then (s, Ok tt) else (s, Raise TypeError).
Proof. unfold _disconnect. apply disconnect_f_S. Qed.

Lemma _disconnect_raises c s :
  falsy (get_address c) = false -> _disconnect c s = (s, Raise TypeError).
Proof. intros Hf. now rewrite _disconnect_eq, Hf. Qed.

(** A session without an address is the one case in which [_disconnect]
    returns: the guard it starts with. *)
Lemma disconnect_without_address c s :
  falsy (get_address c) = true -> _disconnect c s = (s, Ok tt).
Proof. intros Hf. now rewrite _disconnect_eq, Hf. Qed.

(** [_disconnect] changes nothing. *)
Lemma _disconnect_state c s : fst (_disconnect c s) = s.
Proof. rewrite _disconnect_eq. now destruct (falsy (get_address c)). Qed.

(** [_disconnect] always returns or raises. *)
Lemma _disconnect_total c s : snd (_disconnect c s) <> OutOfFuel.
Proof. rewrite _disconnect_eq. destruct (falsy (get_address c)); discriminate. Qed.

(** ** What [broadcast] and [kick_player] preserve *)

Section Preservation.

(** A property of the server that the transport does not touch. *)
Variable P : Server -> Prop.
Hypothesis P_net : forall f s, P s -> P (with_net f s).

Lemma bind_preserves {A B} (m : M A) (k : A -> M B) s :
  P (fst (m s)) -> (forall a s', P s' -> P (fst (k a s'))) ->
  P (fst (bind m k s)).
Proof.
  unfold bind. destruct (m s) as [s' [a| e |]]; simpl; auto.
Qed.

Lemma for_each_preserves {A} (body : A -> M unit) :
  (forall x s, P s -> P (fst (body x s))) ->
  forall xs s, P s -> P (fst (for_each body xs s)).
Proof.
  intros Hb xs. induction xs as [|x xs IH]; intros s Hs; simpl; [exact Hs|].
  apply bind_preserves; auto.
Qed.

Lemma send_preserves c data s : P s -> P (fst (send c data s)).
Proof. unfold send. destruct (is_broken s c); simpl; auto. Qed.

Lemma broadcast_with_preserves disconnect data ignore :
  (forall c s, P s -> P (fst (disconnect c s))) ->
  forall s, P s -> P (fst (broadcast_with disconnect data ignore s)).
Proof.
  intros Hd s Hs. unfold broadcast_with.
  apply for_each_preserves; [|exact Hs].
  intros p s' Hs'. destruct (in_dec _ _ _); [exact Hs'|].
  unfold try_except, send. destruct (is_broken s' (connection p)); simpl; auto.
Qed.

Lemma _disconnect_preserves c s : P s -> P (fst (_disconnect c s)).
Proof. now rewrite _disconnect_state. Qed.

Lemma broadcast_preserves data ignore s : P s -> P (fst (broadcast data ignore s)).
Proof.
  unfold broadcast. apply broadcast_with_preserves.
  intros c s'. apply _disconnect_preserves.
Qed.

(** [kick_player] too, when dropping an ID entry is harmless. *)
Hypothesis P_drop_id : forall i s, P s -> P (with_players (fun d => remove d i) s).

Lemma kick_player_preserves i reason s : P s -> P (fst (kick_player i reason s)).
Proof.
  intros Hs. unfold kick_player.
  apply bind_preserves; auto.
  { unfold get_player. now destruct (get (_players s) i). }
  intros p s1 Hs1. apply bind_preserves; auto.
  { now apply send_preserves. }
  intros _ s2 Hs2. apply bind_preserves; auto.
  { unfold del_players. destruct (del (_players s2) i) as [d|] eqn:Hdel; [|exact Hs2].
    apply del_Some in Hdel. destruct Hdel as [_ ->]. now apply P_drop_id. }
  intros _ s3 Hs3. apply bind_preserves; auto.
  { now apply broadcast_preserves. }
  intros _ s4 Hs4. now apply _disconnect_preserves.
Qed.

End Preservation.

(** ** [broadcast] always returns or raises *)

Lemma bind_not_OutOfFuel {A B} (m : M A) (k : A -> M B) s :
  snd (m s) <> OutOfFuel ->
  (forall a s', snd (k a s') <> OutOfFuel) ->
  snd (bind m k s) <> OutOfFuel.
Proof.
  unfold bind. destruct (m s) as [s' [a|e|]]; simpl; intros Hm Hk;
    auto; discriminate.
Qed.

Lemma for_each_not_OutOfFuel {A} (body : A -> M unit) :
  (forall x s, snd (body x s) <> OutOfFuel) ->
  forall xs s, snd (for_each body xs s) <> OutOfFuel.
Proof.
  intros Hb xs. induction xs as [|x xs IH]; intros s; simpl; [discriminate|].
  apply bind_not_OutOfFuel; auto.
Qed.

Lemma broadcast_total data ignore s : snd (broadcast data ignore s) <> OutOfFuel.
Proof.
  unfold broadcast, broadcast_with.
  apply for_each_not_OutOfFuel.
  intros p s'. destruct (in_dec _ _ _); [discriminate|].
  unfold try_except, send. destruct (is_broken s' (connection p)); simpl;
    [apply _disconnect_total | discriminate].
Qed.

(** ** The consistency invariant *)

Lemma Consistent_ext s s' :
  _connections s = _connections s' -> _players s = _players s' ->
  _players_by_address s = _players_by_address s' ->
  Consistent s -> Consistent s'.
Proof.
  intros Hc Hp Hb [H1 H2 H3].
  split; rewrite <- ?Hc, <- ?Hp, <- ?Hb; assumption.
Qed.

Lemma Consistent_net f s : Consistent s -> Consistent (with_net f s).
Proof. now apply Consistent_ext. Qed.

Lemma Consistent_with_player_id i s : Consistent s -> Consistent (with_player_id i s).
Proof. now apply Consistent_ext. Qed.

Lemma Consistent_fresh config : Consistent (fresh config).
Proof. split; simpl; intros; discriminate. Qed.

Lemma Consistent_disconnect c s : Consistent s -> Consistent (fst (_disconnect c s)).
Proof. now rewrite _disconnect_state. Qed.

Lemma Consistent_broadcast data ignore s :
  Consistent s -> Consistent (fst (broadcast data ignore s)).
Proof. apply broadcast_preserves. apply Consistent_net. Qed.

Lemma Consistent_accept addr sock s : Consistent s -> Consistent (fst (accept addr sock s)).
Proof.
  intros [H1 H2 H3]. split; simpl.
  - intros a p Hp. destruct (H1 _ _ Hp) as (Haddr & Hid & Hconn).
    repeat split; auto. unfold contains in *. rewrite get_set.
    destruct (eq_dec a (Some addr)); [reflexivity|exact Hconn].
  - exact H2.
  - intros a. unfold contains. rewrite get_set.
    destruct (eq_dec a (Some addr)) as [->|]; [reflexivity|apply H3].
Qed.

Lemma Consistent_register p s :
  Consistent s ->
  contains (_players s) (player_id p) = false ->
  contains (_connections s) (get_address (connection p)) = true ->
  contains (_players_by_address s) (get_address (connection p)) = false ->
  Consistent (register p s).
Proof.
  intros [H1 H2 H3] Hid Hconn Hb.
  apply contains_false in Hid. apply contains_false in Hb.
  split; simpl.
  - intros a q Hq. rewrite get_set in Hq.
    destruct (eq_dec a (get_address (connection p))) as [->|Hne].
    + inversion Hq; subst q. rewrite get_set_same. auto.
    + destruct (H1 _ _ Hq) as (Haddr & Hidq & Hconnq).
      repeat split; auto. rewrite get_set_other; [exact Hidq|]. congruence.
  - intros i q Hq. rewrite get_set in Hq.
    destruct (eq_dec i (player_id p)) as [->|Hne].
    + inversion Hq; subst q. rewrite get_set_same. auto.
    + destruct (H2 _ _ Hq) as (Hi & Hbq). split; [exact Hi|].
      rewrite get_set_other; [exact Hbq|]. congruence.
  - exact H3.
Qed.

(** The invariant gives what the claim asks of the three maps. *)
Lemma Consistent_registry_consistent s : Consistent s -> registry_consistent s.
Proof.
  intros [H1 H2 H3]. split; [|split].
  - intros a p Hp. destruct (H1 _ _ Hp) as (Ha & Hid & Hc).
    split; [exact Hid|now rewrite Ha].
  - intros i j p q Hp Hq Haddr.
    destruct (H2 _ _ Hp) as (Hi & Hbp), (H2 _ _ Hq) as (Hj & Hbq).
    rewrite Haddr, Hbq in Hbp. congruence.
  - intros i j p q Hp Hq Hid.
    destruct (H2 _ _ Hp) as (Hi & _), (H2 _ _ Hq) as (Hj & _). congruence.
Qed.

(** ** [add_player] case by case *)

(** The permission level [add_player] gives: operator [0x64] or normal. *)
Lemma add_player_rejected c coords nm s :
  (len (_players s) <? _max_players s)%Z || is_op s nm = false ->
  add_player c coords nm s =
  if is_broken s c then (s, Raise BrokenPipeError)
  else (with_net (net_push c (DisconnectPlayerPacket "Server full")) s, Ok None).
Proof.
  intros Hgate. unfold add_player. rewrite Hgate.
  unfold bind, send, ret. destruct (is_broken s c); reflexivity.
Qed.

Lemma add_player_sequential c coords nm s :
  (len (_players s) <? _max_players s)%Z || is_op s nm = true ->
  contains (_players s) (_player_id s) = false ->
  add_player c coords nm s =
  (register (mkPlayer (_player_id s) c coords nm (if is_op s nm then 100 else 0)%Z)
            (with_player_id (_player_id s + 1)%Z s),
   Ok (Some (_player_id s))).
Proof.
  intros Hgate Hfree. unfold add_player. rewrite Hgate.
  unfold bind at 1. rewrite Hfree. reflexivity.
Qed.

Lemma add_player_scan c coords nm s i :
  (len (_players s) <? _max_players s)%Z || is_op s nm = true ->
  contains (_players s) (_player_id s) = true ->
  find (fun i => negb (contains (_players s) i)) (range 256) = Some i ->
  add_player c coords nm s =
  (register (mkPlayer i c coords nm (if is_op s nm then 100 else 0)%Z)
            (with_player_id i s),
   Ok (Some i)).
Proof.
  intros Hgate Hocc Hfind. unfold add_player. rewrite Hgate.
  unfold bind at 1. rewrite Hocc, Hfind. reflexivity.
Qed.

Lemma add_player_exhausted c coords nm s :
  (len (_players s) <? _max_players s)%Z || is_op s nm = true ->
  contains (_players s) (_player_id s) = true ->
  find (fun i => negb (contains (_players s) i)) (range 256) = None ->
  add_player c coords nm s = (s, Raise (ValueError "No more ID's left")).
Proof.
  intros Hgate Hocc Hfind. unfold add_player. rewrite Hgate.
  unfold bind at 1. rewrite Hocc, Hfind. reflexivity.
Qed.

Lemma Consistent_add_player c coords nm s :
  Consistent s ->
  contains (_connections s) (get_address c) = true ->
  contains (_players_by_address s) (get_address c) = false ->
  Consistent (fst (add_player c coords nm s)).
Proof.
  intros Hs Hconn Hb.
  destruct ((len (_players s) <? _max_players s)%Z || is_op s nm) eqn:Hgate.
  - destruct (contains (_players s) (_player_id s)) eqn:Hocc.
    + destruct (find (fun i => negb (contains (_players s) i)) (range 256)) as [i|] eqn:Hfind.
      * rewrite (add_player_scan _ _ _ _ Hgate Hocc Hfind). simpl fst.
        apply find_some in Hfind. destruct Hfind as [_ Hfree].
        apply negb_true_iff in Hfree.
        apply Consistent_register; simpl; auto.
        now apply Consistent_with_player_id.
      * now rewrite (add_player_exhausted _ _ _ _ Hgate Hocc Hfind).
    + rewrite (add_player_sequential _ _ _ _ Hgate Hocc). simpl fst.
      apply Consistent_register; simpl; auto.
      now apply Consistent_with_player_id.
  - rewrite (add_player_rejected _ _ _ _ Hgate).
    destruct (is_broken s c); simpl; [exact Hs|now apply Consistent_net].
Qed.

(** ** [broadcast] when every transport is healthy *)

Lemma is_broken_with_net f s c :
  net_broken (f (net s)) = net_broken (net s) ->
  is_broken (with_net f s) c = is_broken s c.
Proof. unfold is_broken. simpl. now intros ->. Qed.

Lemma net_broken_deliver data ignore ps n :
  net_broken (deliver data ignore ps n) = net_broken n.
Proof.
  unfold deliver. revert n. induction ps as [|p ps IH]; intros n; simpl; [reflexivity|].
  rewrite IH. destruct (in_dec _ _ _); reflexivity.
Qed.

Lemma for_each_healthy (disconnect : Connection -> M unit) data ignore ps : forall s,
  healthy s ps = true ->
  for_each
    (fun player =>
       if in_dec eq_dec (get_address (connection player)) ignore then ret tt
       else try_except (send (connection player) data) is_IOError
              (disconnect (connection player)))
    ps s
  = (with_net (deliver data ignore ps) s, Ok tt).
Proof.
  induction ps as [|p ps IH]; intros s Hh.
  - destruct s; reflexivity.
  - simpl in Hh. apply andb_true_iff in Hh. destruct Hh as [Hp Hps].
    apply negb_true_iff in Hp.
    cbn [for_each]. unfold bind at 1.
    destruct (in_dec eq_dec (get_address (connection p)) ignore) as [Hin|Hin].
    + unfold ret at 1. rewrite IH by exact Hps.
      unfold deliver. cbn [fold_left].
      destruct (in_dec eq_dec (get_address (connection p)) ignore); [reflexivity|contradiction].
    + unfold try_except, send. rewrite Hp.
      rewrite IH.
      * unfold deliver. cbn [fold_left].
        destruct (in_dec eq_dec (get_address (connection p)) ignore); [contradiction|].
        destruct s; reflexivity.
      * exact Hps.
Qed.

(** With every player's transport healthy, a broadcast queues the data once
    for each player the ignore list does not exclude, in order, returns, and
    touches nothing else. *)
Lemma broadcast_with_healthy disconnect data ignore s :
  healthy s (values (_players s)) = true ->
  broadcast_with disconnect data ignore s =
  (with_net (deliver data (match ignore with Some l => l | None => [] end)
                     (values (_players s))) s, Ok tt).
Proof.
  intros Hh. unfold broadcast_with.
  destruct ignore as [[|a l]|]; now apply for_each_healthy.
Qed.

(** ** [kick_player] case by case *)

Lemma kick_player_absent i reason s :
  get (_players s) i = None -> kick_player i reason s = (s, Raise KeyError).
Proof. intros Hi. unfold kick_player, bind, get_player. now rewrite Hi. Qed.

Lemma kick_player_broken i reason s p :
  get (_players s) i = Some p -> is_broken s (connection p) = true ->
  kick_player i reason s = (s, Raise BrokenPipeError).
Proof.
  intros Hi Hb. unfold kick_player. unfold bind at 1, get_player. rewrite Hi.
  unfold bind at 1, send. now rewrite Hb.
Qed.

Lemma healthy_with_net f s ps :
  net_broken (f (net s)) = net_broken (net s) ->
  healthy (with_net f s) ps = healthy s ps.
Proof.
  intros Hf. unfold healthy. induction ps as [|p ps IH]; simpl; [reflexivity|].
  now rewrite IH, is_broken_with_net.
Qed.

Lemma net_sent_deliver data ignore ps : forall n,
  net_sent (deliver data ignore ps n) =
  (net_sent n ++
   map (fun p => (conn_sock (connection p), data))
       (filter (fun p => negb (listed ignore (get_address (connection p)))) ps))%list.
Proof.
  unfold deliver, listed. induction ps as [|p ps IH]; intros n; simpl.
  - now rewrite app_nil_r.
  - rewrite IH. destruct (in_dec eq_dec (get_address (connection p)) ignore); simpl.
    + reflexivity.
    + now rewrite <- app_assoc.
Qed.

(** ** [broadcast] up to the first failing recipient *)

Lemma for_each_app {A} (body : A -> M unit) (xs ys : list A) s :
  for_each body (xs ++ ys)%list s = (for_each body xs ;; for_each body ys) s.
Proof.
  revert s. induction xs as [|x xs IH]; intros s; simpl.
  - reflexivity.
  - unfold bind. destruct (body x s) as [s' [[]|e|]]; [|reflexivity|reflexivity].
    rewrite IH. reflexivity.
Qed.

Lemma try_send_broken c data (handler : M unit) s :
  is_broken s c = true ->
  try_except (send c data) is_IOError handler s = handler s.
Proof. intros Hb. unfold try_except, send. now rewrite Hb. Qed.

(** The loop of [broadcast] over a snapshot whose first failing recipient is
    [q]: the players before [q] are served, the send to [q] fails, the
    [_disconnect] of its session raises [TypeError], and that ends the loop;
    the players behind [q] are not reached. *)
Lemma for_each_first_failure data ignore (pre rest : list Player) (q : Player) s :
  healthy s pre = true ->
  is_broken s (connection q) = true ->
  listed ignore (get_address (connection q)) = false ->
  falsy (get_address (connection q)) = false ->
  for_each
    (fun player =>
       if in_dec eq_dec (get_address (connection player)) ignore then ret tt
       else try_except (send (connection player) data) is_IOError
              (_disconnect (connection player)))
    (pre ++ q :: rest)%list s
  = (with_net (deliver data ignore pre) s, Raise TypeError).
Proof.
  intros Hh Hb Hl Hf. rewrite for_each_app. unfold bind at 1.
  rewrite for_each_healthy by exact Hh.
  cbn [for_each]. unfold bind at 1.
  unfold listed in Hl.
  destruct (in_dec eq_dec (get_address (connection q)) ignore); [discriminate|].
  rewrite try_send_broken.
  - now rewrite _disconnect_raises.
  - rewrite is_broken_with_net; [exact Hb|]. apply net_broken_deliver.
Qed.

Lemma values_app {K V} (d1 d2 : dict K V) :
  values (d1 ++ d2)%list = (values d1 ++ values d2)%list.
Proof. unfold values. apply map_app. Qed.

Lemma broadcast_first_failure data ignore (d1 d2 : dict Z Player) i q s :
  _players s = (d1 ++ (i, q) :: d2)%list ->
  healthy s (values d1) = true ->
  is_broken s (connection q) = true ->
  listed (match ignore with Some l => l | None => [] end)
         (get_address (connection q)) = false ->
  falsy (get_address (connection q)) = false ->
  broadcast data ignore s =
  (with_net (deliver data (match ignore with Some l => l | None => [] end)
                     (values d1)) s,
   Raise TypeError).
Proof.
  intros Hp Hh Hb Hl Hf. unfold broadcast, broadcast_with.
  rewrite Hp, values_app. change (values ((i, q) :: d2)) with (q :: values d2).
  destruct ignore as [[|a l]|]; now apply for_each_first_failure.
Qed.

(** ** C1: consistency of the registry along a run *)

Lemma Consistent_run_op o s :
  Consistent s -> admissible_op o s = true -> Consistent (run_op o s).
Proof.
  intros Hs Hadm. destruct o as [addr sock|c|c coords nm|i reason|c|data ignore]; simpl.
  - now apply Consistent_accept.
  - now apply Consistent_net.
  - simpl in Hadm. apply andb_true_iff in Hadm. destruct Hadm as [Hc Hb].
    apply negb_true_iff in Hb. now apply Consistent_add_player.
  - discriminate Hadm.
  - now apply Consistent_disconnect.
  - now apply Consistent_broadcast.
Qed.

Lemma Consistent_run ops : forall s,
  Consistent s -> admissible ops s = true -> Consistent (run ops s).
Proof.
  induction ops as [|o ops IH]; intros s Hs Hadm; [exact Hs|].
  simpl in Hadm. apply andb_true_iff in Hadm. destruct Hadm as [Ho Hops].
  unfold run. simpl. apply IH; [now apply Consistent_run_op|exact Hops].
Qed.

(** C1, as amended.  From a fresh server, after every sequence of accepts,
    transport failures, [add_player], [_disconnect] and [broadcast] calls --
    no [kick_player] -- in which each [add_player] is made for a session that
    is in the connection table and has no player yet, the three registry maps
    are consistent: every address of the address index leads to a player held
    under its ID in the ID map and whose address is a key of the connection
    table, no address belongs to two players, and no player ID is held by two
    players. *)
Theorem registry_consistent_run (config : Config) (ops : list Op) :
  admissible ops (fresh config) = true ->
  registry_consistent (run ops (fresh config)).
Proof.
  intros Hadm. apply Consistent_registry_consistent.
  apply Consistent_run; [apply Consistent_fresh|exact Hadm].
Qed.

Lemma registry_consistent_run_witness :
  let ops := [Accept (sample_address 1) 1; AddPlayer (session 1) [] "al";
              Accept (sample_address 2) 2; AddPlayer (session 2) [] "bo";
              Accept (sample_address 3) 3; AddPlayer (session 3) [] "admin";
              Break (session 3); Broadcast PingPacket None;
              Disconnect (session 1)] in
  admissible ops (fresh sample_config) = true /\
  registry_consistent (run ops (fresh sample_config)).
Proof.
  split; [reflexivity|].
  apply (@registry_consistent_run sample_config). reflexivity.
Defined.

(** Why the amended claim leaves [kick_player] out: the kick deletes the
    player from the ID map, the [_disconnect] it ends with raises before it
    deletes anything, and the address index is left with an entry for a
    player the ID map no longer has (see C6). *)
Lemma kick_leaves_stale_address :
  let s := run [Accept (sample_address 1) 1; AddPlayer (session 1) [] "al";
                KickPlayer 0 "bye"] (fresh sample_config) in
  keys (_players s) = [] /\
  keys (_players_by_address s) = [Some (sample_address 1)] /\
  ~ registry_consistent s.
Proof.
  intros s. split; [reflexivity|]. split; [reflexivity|].
  intros (Hindex & _).
  destruct (Hindex (Some (sample_address 1)) (mkPlayer 0 (session 1) [] "al" 0) eq_refl)
    as [Hid _].
  discriminate Hid.
Qed.

(** C1 as stated fails: [add_player] does not look whether the session has a
    player already, so two calls for one session leave two players with the
    same address in the ID map. *)
Lemma registry_inconsistent_after_double_add :
  ~ registry_consistent
      (run [Accept (sample_address 1) 1;
            AddPlayer (session 1) [] "al"; AddPlayer (session 1) [] "al"]
           (fresh sample_config)).
Proof.
  intros (_ & Haddr & _).
  specialize (Haddr 0%Z 1%Z (mkPlayer 0 (session 1) [] "al" 0)
                    (mkPlayer 1 (session 1) [] "al" 0) eq_refl eq_refl eq_refl).
  discriminate.
Qed.

(** ** C2: disconnecting a session twice *)

(** C2, at the code.  For a session that has an address the second
    [_disconnect] is no no-op that returns: like the first, it raises
    [TypeError] at the log line ["Disconnecting connection %s" % address],
    where the [(host, port)] pair is two arguments for one [%s].  Neither
    call closes the transport, removes an entry or broadcasts anything: the
    server is after both what it was before the first. *)
Theorem second_disconnect_raises (c : Connection) (s : Server) :
  falsy (get_address c) = false ->
  _disconnect c s = (s, Raise TypeError) /\
  _disconnect c (fst (_disconnect c s)) = (s, Raise TypeError).
Proof.
  intros Hf. rewrite _disconnect_state. split; now apply _disconnect_raises.
Qed.

Lemma second_disconnect_raises_witness :
  let s := run [Accept (sample_address 1) 1; AddPlayer (session 1) [] "al";
                Accept (sample_address 2) 2; AddPlayer (session 2) [] "bo"]
               (fresh sample_config) in
  snd (_disconnect (session 1) s) = Raise TypeError /\
  snd (_disconnect (session 1) (fst (_disconnect (session 1) s))) = Raise TypeError /\
  keys (_connections (fst (_disconnect (session 1) (fst (_disconnect (session 1) s))))) =
    [Some (sample_address 1); Some (sample_address 2)].
Proof.
  intros s.
  destruct (@second_disconnect_raises (session 1) s eq_refl) as [H1 H2].
  rewrite H2, H1. repeat split.
Defined.

(** ** The sequential counter stays ahead of the IDs in use *)

Lemma ids_below_counter_same s s' :
  _players s' = _players s -> _player_id s' = _player_id s ->
  ids_below_counter s -> ids_below_counter s'.
Proof. unfold ids_below_counter. intros -> ->. auto. Qed.

Lemma ids_below_counter_net f s :
  ids_below_counter s -> ids_below_counter (with_net f s).
Proof. exact (fun H => H). Qed.

Lemma ids_below_counter_remove i s :
  ids_below_counter s -> ids_below_counter (with_players (fun d => remove d i) s).
Proof.
  intros [H0 H]. split; [exact H0|]. simpl. intros j Hj.
  apply contains_remove in Hj. now apply H.
Qed.

Lemma ids_below_counter_free s :
  ids_below_counter s -> contains (_players s) (_player_id s) = false.
Proof.
  intros [_ H]. destruct (contains (_players s) (_player_id s)) eqn:Hc; [|reflexivity].
  apply H in Hc. lia.
Qed.

Lemma ids_below_counter_add_player c coords nm s :
  ids_below_counter s -> ids_below_counter (fst (add_player c coords nm s)).
Proof.
  intros Hs. pose proof (ids_below_counter_free Hs) as Hfree.
  destruct ((len (_players s) <? _max_players s)%Z || is_op s nm) eqn:Hgate.
  - rewrite (@add_player_sequential c coords nm s Hgate Hfree). destruct Hs as [H0 H].
    split; simpl; [lia|]. intros j. unfold contains. rewrite get_set.
    destruct (eq_dec j (_player_id s)) as [->|]; [lia|].
    intros Hj. apply H in Hj. lia.
  - rewrite (@add_player_rejected c coords nm s Hgate).
    destruct (is_broken s c); [exact Hs | now apply ids_below_counter_net].
Qed.

Lemma ids_below_counter_run_op o s :
  ids_below_counter s -> ids_below_counter (run_op o s).
Proof.
  intros Hs. destruct o as [addr sock|c|c coords nm|i reason|c|data ignore]; simpl.
  - exact Hs.
  - exact Hs.
  - now apply ids_below_counter_add_player.
  - apply kick_player_preserves;
      [ intros f s'; apply ids_below_counter_net
      | intros j s'; apply ids_below_counter_remove
      | exact Hs ].
  - now rewrite _disconnect_state.
  - apply broadcast_preserves;
      [ intros f s'; apply ids_below_counter_net
      | exact Hs ].
Qed.

(** In every state a server can reach, the counter points at a free slot. *)
Lemma ids_below_counter_run config ops : ids_below_counter (run ops (fresh config)).
Proof.
  unfold run. generalize (fresh config) (conj (Z.le_refl 0)
    (fun i (H : contains (_players (fresh config)) i = true) =>
       False_ind (0 <= i < 0)%Z (Bool.diff_false_true H)) : ids_below_counter (fresh config)).
  induction ops as [|o ops IH]; intros s Hs; simpl; [exact Hs|].
  apply IH. now apply ids_below_counter_run_op.
Qed.

(** The ID-reuse scan of [add_player] is therefore dead code: it runs only
    when the counter's slot is taken. *)
Lemma add_player_never_scans config ops :
  contains (_players (run ops (fresh config))) (_player_id (run ops (fresh config))) = false.
Proof. apply ids_below_counter_free, ids_below_counter_run. Qed.

(** ** C3: the capacity gate of [add_player] *)

(** C3.  In every state a server reaches: when the registry is at or above
    capacity and the name is no operator's, [add_player] is the sending of
    the disconnect packet with reason "Server full" to the session and
    nothing else -- it returns no ID and leaves the player maps as they were
    (the packet is queued when the transport is healthy; a broken transport
    makes the send raise); when the name is an operator's, a new player is
    made whatever the occupancy: the call returns its ID, and both player
    maps hold it, with operator permission [0x64]. *)
Theorem add_player_capacity_gate (config : Config) (ops : list Op)
    (c : Connection) (coords : list Z) (nm : string) :
  let s := run ops (fresh config) in
  ((_max_players s <= len (_players s))%Z -> is_op s nm = false ->
     add_player c coords nm s =
       (send c (DisconnectPlayerPacket "Server full") ;; ret None) s /\
     (forall i, snd (add_player c coords nm s) <> Ok (Some i)) /\
     _players (fst (add_player c coords nm s)) = _players s /\
     _players_by_address (fst (add_player c coords nm s)) = _players_by_address s /\
     (is_broken s c = false ->
        add_player c coords nm s =
          (with_net (net_push c (DisconnectPlayerPacket "Server full")) s, Ok None)))
  /\
  (is_op s nm = true ->
     let p := mkPlayer (_player_id s) c coords nm 100 in
     contains (_players s) (_player_id s) = false /\
     snd (add_player c coords nm s) = Ok (Some (_player_id s)) /\
     get (_players (fst (add_player c coords nm s))) (_player_id s) = Some p /\
     get (_players_by_address (fst (add_player c coords nm s))) (get_address c) = Some p).
Proof.
  intros s. split.
  - intros Hfull Hop.
    assert (Hgate : (len (_players s) <? _max_players s)%Z || is_op s nm = false).
    { rewrite Hop, orb_false_r. apply Z.ltb_ge. exact Hfull. }
    rewrite (@add_player_rejected c coords nm s Hgate).
    unfold bind, send, ret. destruct (is_broken s c); simpl.
    + repeat split; try discriminate.
    + repeat split; try discriminate.
  - intros Hop p.
    pose proof (add_player_never_scans config ops) as Hfree. fold s in Hfree.
    assert (Hgate : (len (_players s) <? _max_players s)%Z || is_op s nm = true).
    { rewrite Hop. apply orb_true_r. }
    rewrite (@add_player_sequential c coords nm s Hgate Hfree). rewrite Hop.
    simpl. rewrite !get_set_same. auto.
Qed.

Lemma add_player_capacity_gate_witness :
  let ops := [Accept (sample_address 1) 1; AddPlayer (session 1) [] "al";
              Accept (sample_address 2) 2; AddPlayer (session 2) [] "bo";
              Accept (sample_address 3) 3; Accept (sample_address 4) 4] in
  let s := run ops (fresh sample_config) in
  add_player (session 3) [] "cy" s =
    (with_net (net_push (session 3) (DisconnectPlayerPacket "Server full")) s, Ok None) /\
  snd (add_player (session 4) [] "admin" s) = Ok (Some 2%Z).
Proof.
  intros ops s. split.
  - refine (proj2 (proj2 (proj2 (proj2 (proj1
      (add_player_capacity_gate sample_config ops (session 3) [] "cy") _ eq_refl)))) eq_refl).
    vm_compute. discriminate.
  - exact (proj1 (proj2 (proj2
      (add_player_capacity_gate sample_config ops (session 4) [] "admin") eq_refl))).
Defined.

(** ** C4: ID allocation *)

Lemma find_app_first {A} (f : A -> bool) (l1 l2 : list A) :
  find f (l1 ++ l2) =
  match find f l1 with Some x => Some x | None => find f l2 end.
Proof.
  induction l1 as [|x l1 IH]; simpl; [reflexivity|].
  destruct (f x); [reflexivity|exact IH].
Qed.

(** The scan, when it runs, gives the lowest free ID of [[0, 255]]. *)
Lemma find_lowest (f : Z -> bool) (n : nat) (i : Z) :
  find f (range n) = Some i ->
  (0 <= i < Z.of_nat n)%Z /\ f i = true /\
  forall j, (0 <= j < i)%Z -> f j = false.
Proof.
  unfold range. induction n as [|n IH].
  - discriminate.
  - rewrite seq_S, map_app, find_app_first. simpl.
    destruct (find f (map Z.of_nat (seq 0 n))) as [i'|] eqn:Hfound.
    + intros Hi. inversion Hi; subst i'.
      destruct (IH eq_refl) as (Hr & Hf & Hlow). repeat split; auto; lia.
    + assert (Hnone : forall j, (0 <= j < Z.of_nat n)%Z -> f j = false).
      { intros j Hj. apply (find_none f _ Hfound). apply in_map_iff.
        exists (Z.to_nat j). split; [lia|]. apply in_seq. lia. }
      destruct (f (Z.of_nat n)) eqn:Hfn; [|discriminate].
      intros Hi. inversion Hi; subst i. repeat split; auto; lia.
Qed.

(** What the allocation does when the gate lets the player in: the counter's
    ID when that slot is free; else the lowest free ID of [[0, 255]]; else,
    all of [[0, 255]] being taken, a [ValueError] and no change. *)
Lemma add_player_allocation c coords nm s :
  (len (_players s) <? _max_players s)%Z || is_op s nm = true ->
  (contains (_players s) (_player_id s) = false ->
     snd (add_player c coords nm s) = Ok (Some (_player_id s))) /\
  (contains (_players s) (_player_id s) = true ->
     forall i, find (fun i => negb (contains (_players s) i)) (range 256) = Some i ->
     snd (add_player c coords nm s) = Ok (Some i) /\
     (0 <= i < 256)%Z /\ contains (_players s) i = false /\
     forall j, (0 <= j < i)%Z -> contains (_players s) j = true) /\
  (contains (_players s) (_player_id s) = true ->
     (forall i, (0 <= i < 256)%Z -> contains (_players s) i = true) ->
     add_player c coords nm s = (s, Raise (ValueError "No more ID's left"))).
Proof.
  intros Hgate. split; [|split].
  - intros Hfree. now rewrite (@add_player_sequential c coords nm s Hgate Hfree).
  - intros Hocc i Hfind.
    rewrite (@add_player_scan c coords nm s i Hgate Hocc Hfind).
    apply find_lowest in Hfind. destruct Hfind as (Hr & Hf & Hlow).
    apply negb_true_iff in Hf. simpl in Hr. repeat split; auto; try lia.
    intros j Hj. apply Hlow in Hj. now apply negb_false_iff in Hj.
  - intros Hocc Hall. apply add_player_exhausted; auto.
    destruct (find _ (range 256)) as [i|] eqn:Hfind; [|reflexivity].
    apply find_lowest in Hfind. destruct Hfind as (Hr & Hf & _).
    rewrite Hall in Hf by (simpl in Hr; lia). discriminate.
Qed.

(** C4, at the code.  The counter is incremented on every sequential
    admission and never brought back into [[0, 255]], and the scan that would
    raise runs only when the counter's slot is taken.  With the 256 IDs of
    [[0, 255]] all held -- 255 guests and one operator on a server capped at
    255 -- the next admission does not fail: it is given ID 256. *)
Theorem add_player_assigns_id_256 :
  let s := fst (accept (sample_address 256) 256 (run (crowd 256) (fresh capped_config))) in
  forallb (fun i => contains (_players s) i) (range 256) = true /\
  _player_id s = 256%Z /\
  snd (add_player (session 256) [] "admin" s) = Ok (Some 256%Z).
Proof. vm_compute. repeat split. Qed.

(** ** C5: the ID of the first player *)

(** C5, as amended.  Player ID 0 is not reserved: on a server with an empty
    registry and no prior admission, the first player admitted (the capacity
    being positive, or the name an operator's) is assigned player ID 0 and
    entered under it. *)
Theorem first_player_gets_id_0 (c : Connection) (coords : list Z) (nm : string) (s : Server) :
  _players s = empty -> _player_id s = 0%Z ->
  (0 <? _max_players s)%Z || is_op s nm = true ->
  snd (add_player c coords nm s) = Ok (Some 0%Z) /\
  get (_players (fst (add_player c coords nm s))) 0%Z =
    Some (mkPlayer 0 c coords nm (if is_op s nm then 100 else 0)%Z).
Proof.
  intros Hp Hid Hgate.
  assert (Hgate' : (len (_players s) <? _max_players s)%Z || is_op s nm = true)
    by (now rewrite Hp).
  assert (Hfree : contains (_players s) (_player_id s) = false) by (now rewrite Hp).
  rewrite (@add_player_sequential c coords nm s Hgate' Hfree), Hid. simpl.
  now rewrite get_set_same.
Qed.

Lemma first_player_gets_id_0_witness :
  snd (add_player (session 1) [] "Alice"
         (run [Accept (sample_address 1) 1] (fresh sample_config))) = Ok (Some 0%Z).
Proof.
  exact (proj1 (@first_player_gets_id_0 (session 1) [] "Alice"
                  (run [Accept (sample_address 1) 1] (fresh sample_config))
                  eq_refl eq_refl eq_refl)).
Defined.

(** C5 as stated fails: the first client to log in on a fresh server is
    player 0, not player 1. *)
Lemma first_player_is_not_id_1 :
  snd (add_player (session 1) [] "Alice"
         (run [Accept (sample_address 1) 1] (fresh sample_config))) <> Ok (Some 1%Z).
Proof. vm_compute. discriminate. Qed.

(** ** C6: kick_player *)

(** A kick of a registered player whose session has an address, the target
    and the others reachable: the target gets the disconnect packet, leaves
    the ID map, the others get the kick message, and the [_disconnect] that
    follows raises [TypeError] at its log line. *)
Lemma kick_player_healthy i reason s p :
  get (_players s) i = Some p ->
  falsy (get_address (connection p)) = false ->
  is_broken s (connection p) = false ->
  healthy s (values (remove (_players s) i)) = true ->
  kick_player i reason s =
  (with_net
     (fun n =>
        deliver (MessagePacket 0 ("Player " ++ name p ++ " kicked, " ++ reason)) []
          (values (remove (_players s) i))
          (net_push (connection p) (DisconnectPlayerPacket reason) n))
     (with_players (fun d => remove d i) s),
   Raise TypeError).
Proof.
  intros Hi Hfalsy Hb Hh.
  unfold kick_player. unfold bind at 1, get_player. rewrite Hi.
  unfold bind at 1, send. rewrite Hb.
  unfold bind at 1, del_players, del. cbn [_players with_net].
  assert (Hc : contains (_players s) i = true) by (apply contains_true; eauto).
  rewrite Hc.
  unfold bind at 1, broadcast.
  rewrite broadcast_with_healthy by exact Hh.
  rewrite _disconnect_raises by exact Hfalsy.
  reflexivity.
Qed.

(** A kick of a registered player whose session has an address never
    returns: it raises. *)
Lemma kick_player_always_raises i reason s p :
  get (_players s) i = Some p ->
  falsy (get_address (connection p)) = false ->
  exists e, snd (kick_player i reason s) = Raise e.
Proof.
  intros Hi Hfalsy.
  unfold kick_player. unfold bind at 1, get_player. rewrite Hi.
  unfold bind at 1, send. destruct (is_broken s (connection p)); [simpl; eauto|].
  unfold bind at 1, del_players, del. cbn [_players with_net].
  assert (Hc : contains (_players s) i = true) by (apply contains_true; eauto).
  rewrite Hc. unfold bind at 1.
  set (s2 := with_players _ _).
  pose proof (broadcast_total
                (MessagePacket 0 ("Player " ++ name p ++ " kicked, " ++ reason)) None s2)
    as Htotal.
  destruct (broadcast _ None s2) as [s3 [[]|e|]]; simpl in *; [|eauto|congruence].
  rewrite _disconnect_raises by exact Hfalsy. simpl. eauto.
Qed.

(** C6, at the code.  A kick of a registered player whose session has an
    address -- every session the accept loop makes has one -- never
    completes: the call raises.  When the session of the target, like those
    of the others, can be sent to, the target is sent the disconnect packet
    with the reason, leaves the ID map, and the others are sent the kick
    message; the [_disconnect] that follows then raises [TypeError] at its
    log line, before it closes the session or removes anything.  The kicked
    player stays in the address index and its session in the connection
    table; the despawn packet and the quit message are never broadcast. *)
Theorem kick_player_raises_TypeError (i : Z) (reason : string) (p : Player) (s : Server) :
  get (_players s) i = Some p ->
  falsy (get_address (connection p)) = false ->
  (exists e, snd (kick_player i reason s) = Raise e) /\
  (is_broken s (connection p) = false ->
   healthy s (values (remove (_players s) i)) = true ->
   kick_player i reason s =
   (with_net
      (fun n =>
         deliver (MessagePacket 0 ("Player " ++ name p ++ " kicked, " ++ reason)) []
           (values (remove (_players s) i))
           (net_push (connection p) (DisconnectPlayerPacket reason) n))
      (with_players (fun d => remove d i) s),
    Raise TypeError)).
Proof.
  intros Hi Hfalsy. split.
  - now apply (@kick_player_always_raises i reason s p).
  - intros Hb Hh. now apply kick_player_healthy.
Qed.

Lemma kick_player_raises_TypeError_witness :
  let ops := [Accept (sample_address 1) 1; AddPlayer (session 1) [] "al";
              Accept (sample_address 2) 2; AddPlayer (session 2) [] "bo"] in
  let s := run ops (fresh sample_config) in
  snd (kick_player 0 "bye" s) = Raise TypeError /\
  net_sent (net (fst (kick_player 0 "bye" s))) =
    [(1, DisconnectPlayerPacket "bye"); (2, MessagePacket 0 "Player al kicked, bye")] /\
  net_closed (net (fst (kick_player 0 "bye" s))) = [] /\
  keys (_players (fst (kick_player 0 "bye" s))) = [1%Z] /\
  keys (_players_by_address (fst (kick_player 0 "bye" s))) =
    [Some (sample_address 1); Some (sample_address 2)] /\
  keys (_connections (fst (kick_player 0 "bye" s))) =
    [Some (sample_address 1); Some (sample_address 2)].
Proof.
  intros ops s. subst s.
  rewrite (proj2 (@kick_player_raises_TypeError 0%Z "bye"
                    (mkPlayer 0 (session 1) [] "al" 0) (run ops (fresh sample_config))
                    eq_refl eq_refl) eq_refl eq_refl).
  repeat split.
Defined.

(** An unknown ID is the [KeyError] of the lookup, and nothing is done. *)
Lemma kick_player_unknown i reason s :
  contains (_players s) i = false -> kick_player i reason s = (s, Raise KeyError).
Proof. intros Hc. apply kick_player_absent. now apply contains_false. Qed.

(** ** C7: broadcast and failing recipients *)

(** C7, at the code.  A send failure for one recipient does not leave the
    broadcast running.  Let [q] be the first player of the snapshot whose
    send fails (its transport is broken, its address is not on the ignore
    list): the players before it have been served, the [_disconnect] of the
    session of [q] raises [TypeError] at its log line, [broadcast] does not
    catch it and raises it to its caller.  The recipient is not
    disconnected -- the three maps are what they were -- and no player
    behind it in the snapshot receives the data. *)
Theorem broadcast_aborts_on_first_failure (data : Packet) (ignore : option (list addr_t))
    (s : Server) (d1 d2 : dict Z Player) (i : Z) (q : Player) :
  let l := match ignore with Some l => l | None => [] end in
  _players s = (d1 ++ (i, q) :: d2)%list ->
  healthy s (values d1) = true ->
  is_broken s (connection q) = true ->
  listed l (get_address (connection q)) = false ->
  falsy (get_address (connection q)) = false ->
  broadcast data ignore s = (with_net (deliver data l (values d1)) s, Raise TypeError) /\
  net_sent (net (fst (broadcast data ignore s))) =
    (net_sent (net s) ++
     map (fun p => (conn_sock (connection p), data))
         (filter (fun p => negb (listed l (get_address (connection p)))) (values d1)))%list /\
  _players (fst (broadcast data ignore s)) = _players s /\
  _players_by_address (fst (broadcast data ignore s)) = _players_by_address s /\
  _connections (fst (broadcast data ignore s)) = _connections s.
Proof.
  intros l Hp Hh Hb Hl Hf.
  rewrite (@broadcast_first_failure data ignore d1 d2 i q s Hp Hh Hb Hl Hf).
  fold l. cbn [fst net with_net _players _players_by_address _connections].
  rewrite net_sent_deliver. auto.
Qed.

Lemma broadcast_aborts_on_first_failure_witness :
  let s := run [Accept (sample_address 1) 1; AddPlayer (session 1) [] "al";
                Accept (sample_address 2) 2; AddPlayer (session 2) [] "bo";
                Accept (sample_address 3) 3; AddPlayer (session 3) [] "admin";
                Break (session 2)]
               (fresh sample_config) in
  is_broken s (session 3) = false /\
  snd (broadcast PingPacket None s) = Raise TypeError /\
  net_sent (net (fst (broadcast PingPacket None s))) = [(1, PingPacket)] /\
  keys (_players (fst (broadcast PingPacket None s))) = [0; 1; 2]%Z.
Proof.
  intros s. split; [reflexivity|].
  destruct (@broadcast_aborts_on_first_failure PingPacket None s
              [(0%Z, mkPlayer 0 (session 1) [] "al" 0)]
              [(2%Z, mkPlayer 2 (session 3) [] "admin" 100)]
              1%Z (mkPlayer 1 (session 2) [] "bo" 0)
              eq_refl eq_refl eq_refl eq_refl eq_refl)
    as (Hcall & Hsent & Hplayers & _).
  rewrite Hsent, Hplayers, Hcall. repeat split.
Defined.

(** The part of C7 that holds: with no failing transport, exactly the players
    whose address is on the ignore list are skipped. *)
Lemma broadcast_healthy data ignore s :
  healthy s (values (_players s)) = true ->
  broadcast data (Some ignore) s =
  (with_net (deliver data ignore (values (_players s))) s, Ok tt).
Proof. intros Hh. unfold broadcast. now rewrite broadcast_with_healthy. Qed.

(** ** C9: broadcast without an ignore list *)




(** ** C8: load_world *)

Section LoadWorldFacts.
Variable World : Type.
Variable from_save : list Byte.byte -> result World.
Variable new_world : World.
Variable read_file : string -> result (list Byte.byte).
Variable repr : exn -> string.
Variable format_exc : exn -> string.

(** C8.  When the only ways reading and decoding the save can fail are I/O
    errors (a missing file among them) and format errors, [load_world]
    returns normally: a successful decode installs the decoded world and logs
    nothing; a missing file logs the fact and installs the default world; any
    other I/O or format error logs the error and installs the default
    world. *)
Theorem load_world_never_fails (st : Store World) :
  (forall ex, read_save from_save read_file st = Fails ex -> is_IOError ex || is_ValueError ex = true) ->
  snd (load_world from_save new_world read_file repr format_exc st) = Returns tt /\
  match read_save from_save read_file st with
  | Returns w => fst (load_world from_save new_world read_file repr format_exc st) = with_world w st
  | Fails ex =>
      _world (fst (load_world from_save new_world read_file repr format_exc st)) = Some new_world /\
      _save_file (fst (load_world from_save new_world read_file repr format_exc st)) = _save_file st /\
      log (fst (load_world from_save new_world read_file repr format_exc st)) =
        (log st ++
         if is_FileNotFoundError ex
         then [LogInfo "Save file not found, creating a new one"]
         else [LogError ("Error during loading save file: " ++ repr ex);
               LogError (format_exc ex)])%list
  end.
Proof.
  intros Hkinds. unfold load_world.
  destruct (read_save from_save read_file st) as [w|ex] eqn:Hsaved.
  - split; reflexivity.
  - specialize (Hkinds ex eq_refl).
    destruct (is_FileNotFoundError ex).
    + repeat split.
    + rewrite Hkinds. simpl. rewrite <- app_assoc. repeat split.
Qed.

(** Whatever the failure kinds, the decoded world is installed only by a
    successful decode, and a failure that is neither an I/O nor a format
    error is passed on with the store untouched. *)
Lemma load_world_cases (st : Store World) :
  match read_save from_save read_file st with
  | Returns w => load_world from_save new_world read_file repr format_exc st = (with_world w st, Returns tt)
  | Fails ex =>
      if is_IOError ex || is_ValueError ex
      then snd (load_world from_save new_world read_file repr format_exc st) = Returns tt /\ _world (fst (load_world from_save new_world read_file repr format_exc st)) = Some new_world
      else load_world from_save new_world read_file repr format_exc st = (st, Fails ex)
  end.
Proof.
  unfold load_world. destruct (read_save from_save read_file st) as [w|ex]; [reflexivity|].
  destruct ex; simpl; auto.
Qed.

End LoadWorldFacts.

Lemma load_world_never_fails_witness :
  let load := load_world sample_from_save [] sample_read_file sample_repr sample_repr in
  load (mkStore "world.save" None []) =
    (mkStore "world.save" (Some [Byte.x01; Byte.x02]) [], Returns tt) /\
  snd (load (mkStore "empty.save" None [])) = Returns tt /\
  snd (load (mkStore "missing.save" None [])) = Returns tt.
Proof.
  intros load. split; [reflexivity|]. split.
  - refine (proj1 (@load_world_never_fails _ sample_from_save [] sample_read_file
                     sample_repr sample_repr (mkStore "empty.save" None []) _)).
    intros ex Hex. vm_compute in Hex. inversion Hex. reflexivity.
  - refine (proj1 (@load_world_never_fails _ sample_from_save [] sample_read_file
                     sample_repr sample_repr (mkStore "missing.save" None []) _)).
    intros ex Hex. vm_compute in Hex. inversion Hex. reflexivity.
Defined.

(** ** C10: generate_salt *)

Lemma get_char_in (s : string) : forall i,
  i < String.length s -> exists c, String.get i s = Some c /\ char_in c s = true.
Proof.
  induction s as [|c s IH]; intros i Hi; simpl in *; [lia|].
  destruct i as [|i].
  - exists c. now rewrite Ascii.eqb_refl.
  - destruct (IH i ltac:(lia)) as (c' & Hget & Hin).
    exists c'. rewrite Hin, orb_true_r. auto.
Qed.

Lemma all_chars_char_in (f : ascii -> bool) (s : string) (c : ascii) :
  all_chars f s = true -> char_in c s = true -> f c = true.
Proof.
  induction s as [|c' s IH]; simpl; [discriminate|].
  intros Hall Hin. apply andb_true_iff in Hall. destruct Hall as [Hc' Hs].
  apply orb_true_iff in Hin. destruct Hin as [Heq|Hin]; [|now apply IH].
  apply Ascii.eqb_eq in Heq. now subst.
Qed.

Lemma all_chars_join (f : ascii -> bool) (cs : list ascii) :
  Forall (fun c => f c = true) cs -> all_chars f (join cs) = true.
Proof. induction 1 as [|c cs Hc _ IH]; simpl; [reflexivity|]. now rewrite Hc. Qed.

Lemma length_join (cs : list ascii) : String.length (join cs) = List.length cs.
Proof. induction cs as [|c cs IH]; simpl; congruence. Qed.

Section SaltFacts.
Variable Rng : Type.
Variable randbelow : nat -> Rng -> nat * Rng.
Hypothesis randbelow_lt : forall n g, 0 < n -> fst (randbelow n g) < n.

Lemma choices_spec (seq : string) (n : nat) : forall g,
  0 < String.length seq ->
  exists cs g', choices randbelow n seq g = (Some cs, g') /\
                List.length cs = n /\
                Forall (fun c => char_in c seq = true) cs.
Proof.
  induction n as [|n IH]; intros g Hseq; simpl.
  - exists [], g. auto.
  - unfold choice. pose proof (randbelow_lt g Hseq) as Hlt.
    destruct (randbelow (String.length seq) g) as [i g1]. simpl in Hlt.
    destruct (get_char_in seq Hlt) as (c & Hget & Hin). rewrite Hget.
    destruct (IH g1 Hseq) as (cs & g2 & Hcs & Hlen & Hall). rewrite Hcs.
    exists (c :: cs), g2. simpl. auto.
Qed.

(** C10.  [generate_salt] always stores a salt: sixteen characters, each of
    them an ASCII letter or a decimal digit, hence each among the characters
    that URL quoting leaves alone. *)
Theorem generate_salt_base_62 (g : Rng) (s : Server) :
  exists salt g',
    generate_salt randbelow g s = (Some (with_salt salt s), g') /\
    get_salt (with_salt salt s) = salt /\
    String.length salt = 16 /\
    all_chars (fun c => char_in c base_62) salt = true /\
    all_chars url_always_safe salt = true.
Proof.
  unfold generate_salt.
  destruct (@choices_spec base_62 16 g) as (cs & g' & Hcs & Hlen & Hall);
    [simpl; lia|].
  rewrite Hcs. exists (join cs), g'. repeat split.
  - now rewrite length_join.
  - now apply all_chars_join.
  - apply all_chars_join. eapply Forall_impl; [|exact Hall].
    intros c Hc. apply (@all_chars_char_in url_always_safe base_62 c); [reflexivity|exact Hc].
Qed.

End SaltFacts.

Lemma generate_salt_base_62_witness :
  exists salt,
    fst (generate_salt sample_randbelow 0 (fresh sample_config)) =
      Some (with_salt salt (fresh sample_config)) /\
    String.length salt = 16.
Proof.
  destruct (@generate_salt_base_62 nat sample_randbelow
              (fun n g H => Nat.mod_upper_bound g n (Nat.neq_sym _ _ (Nat.lt_neq _ _ H)))
              0 (fresh sample_config))
    as (salt & g' & Hgen & _ & Hlen & _).
  exists salt. rewrite Hgen. auto.
Defined.

(** * Further properties of the server core *)

(** ** The recursion between [_disconnect] and [broadcast] *)



(** ** What [_disconnect], [broadcast] and [kick_player] never do *)

Lemma only_removes_refl s : only_removes s s.
Proof. unfold only_removes. repeat split; auto. Qed.

Lemma only_removes_net s0 f s : only_removes s0 s -> only_removes s0 (with_net f s).
Proof. exact (fun H => H). Qed.

Lemma only_removes_drop_id s0 i s :
  only_removes s0 s -> only_removes s0 (with_players (fun d => remove d i) s).
Proof.
  intros (Hc & Hp & Hb & Hrest). repeat split; try apply Hrest; auto.
  simpl. intros j q Hg. rewrite get_remove in Hg.
  destruct (eq_dec j i); [discriminate|auto].
Qed.

(** X2.  [_disconnect], [broadcast] and [kick_player] only ever take entries
    out of the three maps: whatever they return or raise, every entry of the
    connection table, the ID map and the address index afterwards was there
    before, unchanged, and the ID counter, the operator list, the capacity
    and the salt are as they were. *)
Theorem registry_only_shrinks (s : Server) (c : Connection) (data : Packet)
    (ignore : option (list addr_t)) (i : Z) (reason : string) :
  only_removes s (fst (_disconnect c s)) /\
  only_removes s (fst (broadcast data ignore s)) /\
  only_removes s (fst (kick_player i reason s)).
Proof.
  split; [|split].
  - rewrite _disconnect_state. apply only_removes_refl.
  - apply broadcast_preserves;
      [ intros f s'; apply only_removes_net
      | apply only_removes_refl ].
  - apply kick_player_preserves;
      [ intros f s'; apply only_removes_net
      | intros j s'; apply only_removes_drop_id
      | apply only_removes_refl ].
Qed.

(** ** [broadcast] when the transports are healthy *)

(** X3.  With the transports of all registered players healthy, [broadcast]
    returns normally, having queued the data exactly once, in registry order,
    for each player whose address is not on the ignore list, and for nobody
    else; the three maps are untouched. *)
Theorem broadcast_reaches_the_unlisted (data : Packet) (ignore : option (list addr_t))
    (s : Server) :
  healthy s (values (_players s)) = true ->
  let l := match ignore with Some l => l | None => [] end in
  snd (broadcast data ignore s) = Ok tt /\
  net_sent (net (fst (broadcast data ignore s))) =
    (net_sent (net s) ++
     map (fun p => (conn_sock (connection p), data))
         (filter (fun p => negb (listed l (get_address (connection p))))
                 (values (_players s))))%list /\
  _players (fst (broadcast data ignore s)) = _players s /\
  _players_by_address (fst (broadcast data ignore s)) = _players_by_address s /\
  _connections (fst (broadcast data ignore s)) = _connections s.
Proof.
  intros Hh l. unfold broadcast. rewrite broadcast_with_healthy by exact Hh.
  simpl. rewrite net_sent_deliver. auto.
Qed.

Lemma broadcast_reaches_the_unlisted_witness :
  let s := run [Accept (sample_address 1) 1; AddPlayer (session 1) [] "al";
                Accept (sample_address 2) 2; AddPlayer (session 2) [] "bo";
                Accept (sample_address 3) 3; AddPlayer (session 3) [] "admin"]
               (fresh sample_config) in
  net_sent (net (fst (broadcast PingPacket (Some [Some (sample_address 2)]) s))) =
    [(1, PingPacket); (3, PingPacket)].
Proof.
  intros s.
  exact (proj1 (proj2 (@broadcast_reaches_the_unlisted PingPacket
                         (Some [Some (sample_address 2)]) s eq_refl))).
Defined.

(** ** Sessions are never let go *)

Lemma contains_set {K V} `{EqDec K} (d : dict K V) k v k' :
  contains d k' = true -> contains (set d k v) k' = true.
Proof.
  unfold contains. rewrite get_set. now destruct (eq_dec k' k).
Qed.

Lemma add_player_keeps_sessions c coords nm s a :
  (contains (_connections s) a = true ->
   contains (_connections (fst (add_player c coords nm s))) a = true) /\
  (contains (_players_by_address s) a = true ->
   contains (_players_by_address (fst (add_player c coords nm s))) a = true).
Proof.
  destruct ((len (_players s) <? _max_players s)%Z || is_op s nm) eqn:Hgate.
  - destruct (contains (_players s) (_player_id s)) eqn:Hocc.
    + destruct (find (fun i => negb (contains (_players s) i)) (range 256)) as [i|] eqn:Hfind.
      * rewrite (@add_player_scan c coords nm s i Hgate Hocc Hfind). simpl.
        split; [auto|apply contains_set].
      * rewrite (@add_player_exhausted c coords nm s Hgate Hocc Hfind). auto.
    + rewrite (@add_player_sequential c coords nm s Hgate Hocc). simpl.
      split; [auto|apply contains_set].
  - rewrite (@add_player_rejected c coords nm s Hgate).
    destruct (is_broken s c); auto.
Qed.

Lemma run_op_keeps_sessions o s a :
  (contains (_connections s) a = true -> contains (_connections (run_op o s)) a = true) /\
  (contains (_players_by_address s) a = true ->
   contains (_players_by_address (run_op o s)) a = true).
Proof.
  destruct o as [addr sock|c|c coords nm|i reason|c|data ignore]; cbn [run_op].
  - split; [|auto]. simpl. apply contains_set.
  - auto.
  - apply add_player_keeps_sessions.
  - split; intros Ha.
    + now apply (@kick_player_preserves (fun s' => contains (_connections s') a = true)).
    + now apply (@kick_player_preserves (fun s' => contains (_players_by_address s') a = true)).
  - rewrite _disconnect_state. auto.
  - split; intros Ha.
    + now apply (@broadcast_preserves (fun s' => contains (_connections s') a = true)).
    + now apply (@broadcast_preserves (fun s' => contains (_players_by_address s') a = true)).
Qed.

(** X4.  The server never lets go of a session.  Whatever is done -- accepts,
    transport failures, [add_player], [kick_player], [_disconnect],
    [broadcast], in any order and whatever each returns or raises -- an
    address that is a key of the connection table stays one, and an address
    that is a key of the address index stays one: the only deletions from
    these two maps are in [_disconnect], behind the log line that raises. *)
Theorem sessions_are_never_removed (ops : list Op) (s : Server) (a : addr_t) :
  (contains (_connections s) a = true ->
   contains (_connections (run ops s)) a = true) /\
  (contains (_players_by_address s) a = true ->
   contains (_players_by_address (run ops s)) a = true).
Proof.
  revert s. induction ops as [|o ops IH]; intros s; [split; auto|].
  change (run (o :: ops) s) with (run ops (run_op o s)).
  destruct (run_op_keeps_sessions o s a) as [Hc Hb].
  destruct (IH (run_op o s)) as [IHc IHb]. split; auto.
Qed.

Lemma sessions_are_never_removed_witness :
  let s := run [Accept (sample_address 1) 1; AddPlayer (session 1) [] "al";
                Accept (sample_address 2) 2; AddPlayer (session 2) [] "bo"]
               (fresh sample_config) in
  let ops := [Break (session 1); Broadcast PingPacket None; Disconnect (session 1);
              KickPlayer 1 "bye"; Disconnect (session 2)] in
  contains (_connections (run ops s)) (Some (sample_address 1)) = true /\
  contains (_players_by_address (run ops s)) (Some (sample_address 2)) = true /\
  keys (_players (run ops s)) = [0%Z].
Proof.
  intros s ops.
  destruct (@sessions_are_never_removed ops s (Some (sample_address 1))) as [Hc _].
  destruct (@sessions_are_never_removed ops s (Some (sample_address 2))) as [_ Hb].
  split; [exact (Hc eq_refl)|]. split; [exact (Hb eq_refl)|]. reflexivity.
Defined.

(** ** [add_player]: what an admission does and what a refusal leaves *)

(** X6.  When [add_player] returns an ID, that ID was free, the new player
    -- with the session, coordinates and name given and permission [0x64] for
    an operator's name, [0x00] otherwise -- is what [get_player] finds under
    the ID and [get_player_by_address] under the session's address; all other
    entries of the two player maps, the connection table and the transports
    are as before. *)
Theorem add_player_then_lookup (c : Connection) (coords : list Z) (nm : string)
    (s : Server) (i : Z) :
  snd (add_player c coords nm s) = Ok (Some i) ->
  let s' := fst (add_player c coords nm s) in
  let p := mkPlayer i c coords nm (if is_op s nm then 100 else 0)%Z in
  contains (_players s) i = false /\
  get_player i s' = (s', Ok p) /\
  get_player_by_address (get_address c) s' = (s', Ok p) /\
  (forall j, j <> i -> get (_players s') j = get (_players s) j) /\
  (forall a, a <> get_address c ->
     get (_players_by_address s') a = get (_players_by_address s) a) /\
  _connections s' = _connections s /\
  net s' = net s.
Proof.
  intros Hret s' p. subst s'.
  destruct ((len (_players s) <? _max_players s)%Z || is_op s nm) eqn:Hgate.
  - destruct (contains (_players s) (_player_id s)) eqn:Hocc.
    + destruct (find (fun i => negb (contains (_players s) i)) (range 256)) as [i0|] eqn:Hfind.
      * pose proof (@add_player_scan c coords nm s i0 Hgate Hocc Hfind) as Heq.
        rewrite Heq in Hret |- *. simpl in Hret. inversion Hret; subst i0.
        apply find_some in Hfind. destruct Hfind as [_ Hfree].
        apply negb_true_iff in Hfree.
        unfold get_player, get_player_by_address. simpl.
        rewrite !get_set_same. repeat split; auto.
        -- intros j Hj. now apply get_set_other.
        -- intros a Ha. now apply get_set_other.
      * rewrite (@add_player_exhausted c coords nm s Hgate Hocc Hfind) in Hret.
        discriminate.
    + pose proof (@add_player_sequential c coords nm s Hgate Hocc) as Heq.
      rewrite Heq in Hret |- *. simpl in Hret. inversion Hret; subst i.
      unfold get_player, get_player_by_address. simpl.
      rewrite !get_set_same. repeat split; auto.
      * intros j Hj. now apply get_set_other.
      * intros a Ha. now apply get_set_other.
  - rewrite (@add_player_rejected c coords nm s Hgate) in Hret.
    destruct (is_broken s c); discriminate.
Qed.

Lemma add_player_then_lookup_witness :
  let s := run [Accept (sample_address 1) 1] (fresh sample_config) in
  get_player 0 (fst (add_player (session 1) [7; 8; 9]%Z "admin" s)) =
    (fst (add_player (session 1) [7; 8; 9]%Z "admin" s),
     Ok (mkPlayer 0 (session 1) [7; 8; 9]%Z "admin" 100)).
Proof.
  intros s.
  exact (proj1 (proj2 (@add_player_then_lookup (session 1) [7; 8; 9]%Z "admin" s 0%Z eq_refl))).
Defined.

(** X7.  When [add_player] returns no ID -- the soft rejection that returns
    [None], the send of the rejection failing, or the [ValueError] of the
    exhausted scan -- it has made no player: the three maps and the ID
    counter are what they were. *)
Theorem add_player_refusal_leaves_registry (c : Connection) (coords : list Z)
    (nm : string) (s : Server) :
  (forall i, snd (add_player c coords nm s) <> Ok (Some i)) ->
  let s' := fst (add_player c coords nm s) in
  _players s' = _players s /\
  _players_by_address s' = _players_by_address s /\
  _connections s' = _connections s /\
  _player_id s' = _player_id s /\
  (snd (add_player c coords nm s) = Ok None ->
   net_sent (net s') =
     (net_sent (net s) ++ [(conn_sock c, DisconnectPlayerPacket "Server full")])%list).
Proof.
  intros Hno s'. subst s'.
  destruct ((len (_players s) <? _max_players s)%Z || is_op s nm) eqn:Hgate.
  - destruct (contains (_players s) (_player_id s)) eqn:Hocc.
    + destruct (find (fun i => negb (contains (_players s) i)) (range 256)) as [i0|] eqn:Hfind.
      * exfalso. apply (Hno i0).
        now rewrite (@add_player_scan c coords nm s i0 Hgate Hocc Hfind).
      * rewrite (@add_player_exhausted c coords nm s Hgate Hocc Hfind). simpl.
        repeat split. discriminate.
    + exfalso. apply (Hno (_player_id s)).
      now rewrite (@add_player_sequential c coords nm s Hgate Hocc).
  - rewrite (@add_player_rejected c coords nm s Hgate).
    destruct (is_broken s c); simpl; repeat split; discriminate.
Qed.

Lemma add_player_refusal_leaves_registry_witness :
  let s := run [Accept (sample_address 1) 1; AddPlayer (session 1) [] "al";
                Accept (sample_address 2) 2; AddPlayer (session 2) [] "bo";
                Accept (sample_address 3) 3] (fresh sample_config) in
  _players (fst (add_player (session 3) [] "cy" s)) = _players s.
Proof.
  intros s.
  refine (proj1 (@add_player_refusal_leaves_registry (session 3) [] "cy" s _)).
  intros i. vm_compute. discriminate.
Defined.

(** ** IDs are handed out in sequence *)

Lemma player_id_run_op o s :
  (forall c coords nm, o <> AddPlayer c coords nm) ->
  _player_id (run_op o s) = _player_id s.
Proof.
  intros Hno. destruct o as [addr sock|c|c coords nm|i reason|c|data ignore]; simpl.
  - reflexivity.
  - reflexivity.
  - now destruct (Hno c coords nm).
  - apply (@kick_player_preserves (fun s' => _player_id s' = _player_id s)); auto.
  - apply (@_disconnect_preserves (fun s' => _player_id s' = _player_id s)); auto.
  - apply (@broadcast_preserves (fun s' => _player_id s' = _player_id s)); auto.
Qed.

Lemma admitted_from (ops : list Op) : forall s n,
  ids_below_counter s -> _player_id s = Z.of_nat n ->
  admitted ops s = map Z.of_nat (seq n (List.length (admitted ops s))).
Proof.
  induction ops as [|o ops IH]; intros s n Hs Hn; [reflexivity|].
  pose proof (ids_below_counter_run_op o Hs) as Hs'.
  cbn [admitted].
  destruct o as [addr sock|c|c coords nm|i reason|c|data ignore];
    try (cbn [app]; apply IH; [exact Hs'|];
         rewrite player_id_run_op by (intros; discriminate); exact Hn).
  pose proof (ids_below_counter_free Hs) as Hfree.
  cbn [run_op] in *.
  destruct ((len (_players s) <? _max_players s)%Z || is_op s nm) eqn:Hgate.
  - rewrite (@add_player_sequential c coords nm s Hgate Hfree) in *.
    cbn [fst snd app List.length seq map] in *. f_equal; [exact Hn|].
    apply IH; [exact Hs'|]. simpl. lia.
  - rewrite (@add_player_rejected c coords nm s Hgate) in *.
    destruct (is_broken s c); cbn [fst snd app] in *; apply IH; auto.
Qed.

(** X8.  From a fresh server, whatever else happens in between (accepts,
    transport failures, kicks, disconnects, broadcasts, refused logins), the
    IDs [add_player] returns are 0, 1, 2, ... in the order of admission: no ID
    is ever handed out twice, also not after its player has left. *)
Theorem admitted_ids_are_sequential (config : Config) (ops : list Op) :
  admitted ops (fresh config) =
  range (List.length (admitted ops (fresh config))).
Proof.
  unfold range. apply admitted_from; [|reflexivity].
  exact (ids_below_counter_run config []).
Qed.

(** ** Capacity holds for players that are no operators *)

Lemma guests_remove_le s i :
  List.length (guests (with_players (fun d => remove d i) s)) <= List.length (guests s).
Proof.
  unfold guests. simpl. change (is_op (with_players _ s)) with (is_op s).
  induction (_players s) as [|[k q] d IH]; simpl; [lia|].
  destruct (eq_dec i k); simpl; destruct (negb (is_op s (name q))); simpl; lia.
Qed.

Lemma guests_le_players s : List.length (guests s) <= List.length (_players s).
Proof. unfold guests. apply filter_length_le. Qed.

Lemma guests_set_le s i p :
  List.length (guests (with_players (fun d => set d i p) s)) <=
  List.length (guests s) + (if is_op s (name p) then 0 else 1).
Proof.
  unfold guests. simpl. change (is_op (with_players _ s)) with (is_op s).
  induction (_players s) as [|[k q] d IH]; simpl.
  - destruct (is_op s (name p)); simpl; lia.
  - destruct (eq_dec i k); simpl.
    + destruct (is_op s (name p)), (is_op s (name q)); simpl; lia.
    + destruct (is_op s (name q)); simpl; lia.
Qed.

Lemma guests_within_capacity_run_op (m : Z) (o : Op) (s : Server) :
  _max_players s = m /\ (Z.of_nat (List.length (guests s)) <= Z.max 0 m)%Z ->
  _max_players (run_op o s) = m /\
  (Z.of_nat (List.length (guests (run_op o s))) <= Z.max 0 m)%Z.
Proof.
  set (P := fun s' => _max_players s' = m /\
                      (Z.of_nat (List.length (guests s')) <= Z.max 0 m)%Z).
  assert (Pnet : forall f s', P s' -> P (with_net f s')) by (intros f s' H; exact H).
  assert (Pid : forall i s', P s' -> P (with_players (fun d => remove d i) s')).
  { intros i s' [Hm Hg]. split; [exact Hm|].
    pose proof (guests_remove_le s' i). lia. }
  intros Hs. change (P (run_op o s)). change (P s) in Hs.
  destruct o as [addr sock|c|c coords nm|i reason|c|data ignore]; simpl.
  - exact Hs.
  - exact Hs.
  - destruct Hs as [Hm Hg].
    assert (Hadd : forall i, (len (_players s) <? _max_players s)%Z || is_op s nm = true ->
               P (register (mkPlayer i c coords nm (if is_op s nm then 100 else 0)%Z)
                           (with_player_id (_player_id (fst (add_player c coords nm s))) s))).
    { intros i Hgate. split; [exact Hm|].
      pose proof (guests_set_le s i (mkPlayer i c coords nm (if is_op s nm then 100 else 0)%Z))
        as Hset.
      pose proof (guests_le_players s) as Hle.
      change (List.length (guests (register _ _)))
        with (List.length (guests (with_players
                (fun d => set d i (mkPlayer i c coords nm (if is_op s nm then 100 else 0)%Z)) s))).
      simpl name in Hset. destruct (is_op s nm) eqn:Hop.
      - lia.
      - rewrite orb_false_r in Hgate. apply Z.ltb_lt in Hgate. unfold len in Hgate. lia. }
    destruct ((len (_players s) <? _max_players s)%Z || is_op s nm) eqn:Hgate.
    + destruct (contains (_players s) (_player_id s)) eqn:Hocc.
      * destruct (find (fun i => negb (contains (_players s) i)) (range 256)) as [i0|] eqn:Hfind.
        -- rewrite (@add_player_scan c coords nm s i0 Hgate Hocc Hfind).
           exact (Hadd i0 eq_refl).
        -- rewrite (@add_player_exhausted c coords nm s Hgate Hocc Hfind). now split.
      * rewrite (@add_player_sequential c coords nm s Hgate Hocc).
        exact (Hadd (_player_id s) eq_refl).
    + rewrite (@add_player_rejected c coords nm s Hgate).
      destruct (is_broken s c); now split.
  - apply kick_player_preserves; auto.
  - apply _disconnect_preserves; auto.
  - apply broadcast_preserves; auto.
Qed.

(** X9.  From a fresh server, at every moment of every run, the number of
    registered players whose name is no operator's is at most the configured
    capacity (none when the capacity is not positive): only operators get in
    beyond it. *)
Theorem guests_within_capacity (config : Config) (ops : list Op) :
  (Z.of_nat (List.length (guests (run ops (fresh config)))) <=
   Z.max 0 (cfg_max_players config))%Z.
Proof.
  assert (H0 : _max_players (fresh config) = cfg_max_players config /\
               (Z.of_nat (List.length (guests (fresh config))) <=
                Z.max 0 (cfg_max_players config))%Z) by (split; [reflexivity|simpl; lia]).
  unfold run. revert H0. generalize (fresh config).
  induction ops as [|o ops IH]; intros s Hs; simpl; [apply Hs|].
  apply IH. now apply guests_within_capacity_run_op.
Qed.

(** ** A kick that does not get going *)

(** X10.  [kick_player] raises [KeyError] for an ID that no player has, and
    the [BrokenPipeError] of the first send when the transport of the target
    is broken; in both cases nothing has happened: the target of the second
    is still registered, nobody was told, no map has changed. *)
Theorem kick_player_fails_early (i : Z) (reason : string) (s : Server) :
  (contains (_players s) i = false ->
     kick_player i reason s = (s, Raise KeyError)) /\
  (forall p, get (_players s) i = Some p -> is_broken s (connection p) = true ->
     kick_player i reason s = (s, Raise BrokenPipeError)).
Proof.
  split.
  - intros Hc. apply kick_player_absent. now apply contains_false.
  - intros p Hi Hb. now apply (@kick_player_broken i reason s p).
Qed.

Lemma kick_player_fails_early_witness :
  kick_player 7 "bye" two_broken = (two_broken, Raise KeyError) /\
  kick_player 0 "bye" two_broken = (two_broken, Raise BrokenPipeError).
Proof.
  split.
  - exact (proj1 (@kick_player_fails_early 7%Z "bye" two_broken) eq_refl).
  - exact (proj2 (@kick_player_fails_early 0%Z "bye" two_broken)
                 (mkPlayer 0 (session 1) [] "al" 0) eq_refl eq_refl).
Defined.

(** ** The keep-alive pass *)

Lemma In_set {K V} `{EqDec K} (d : dict K V) k v kv :
  In kv (set d k v) -> kv = (k, v) \/ In kv d.
Proof.
  induction d as [|[k0 v0] d IH]; simpl.
  - intros [<-|[]]. now left.
  - destruct (eq_dec k k0) as [->|]; simpl.
    + intros [<-|Hin]; auto.
    + intros [<-|Hin]; auto. destruct (IH Hin); auto.
Qed.

Lemma table_sound_run_op o s : table_sound s -> table_sound (run_op o s).
Proof.
  assert (Pnet : forall f s', table_sound s' -> table_sound (with_net f s'))
    by (intros f s' H; exact H).
  assert (Pid : forall i s', table_sound s' ->
                             table_sound (with_players (fun d => remove d i) s'))
    by (intros i s' H; exact H).
  intros Hs. destruct o as [addr sock|c|c coords nm|i reason|c|data ignore]; simpl.
  - intros a c Hin. apply In_set in Hin. destruct Hin as [Heq|Hin]; [|now apply Hs].
    inversion Heq; subst. split; reflexivity.
  - exact Hs.
  - unfold add_player.
    destruct ((len (_players s) <? _max_players s)%Z || is_op s nm).
    + unfold bind at 1. destruct (contains (_players s) (_player_id s)).
      * destruct (find _ (range 256)); exact Hs.
      * exact Hs.
    + unfold bind, send. destruct (is_broken s c); exact Hs.
  - apply kick_player_preserves; auto.
  - now rewrite _disconnect_state.
  - apply broadcast_preserves; auto.
Qed.

Lemma table_sound_run config ops : table_sound (run ops (fresh config)).
Proof.
  assert (H0 : table_sound (fresh config)) by (intros a c []).
  unfold run. revert H0. generalize (fresh config).
  induction ops as [|o ops IH]; intros s Hs; simpl; [exact Hs|].
  apply IH. now apply table_sound_run_op.
Qed.

Lemma nth_error_middle {A} (pre : list A) v rest :
  nth_error (pre ++ v :: rest) (List.length pre) = Some v.
Proof. induction pre as [|x pre IH]; simpl; auto. Qed.

Lemma keep_alive_from_healthy used (rest : list Connection) : forall pre s,
  values (_connections s) = (pre ++ rest)%list ->
  List.length (_connections s) = used ->
  forallb (fun c => negb (is_broken s c)) rest = true ->
  for_each_live _connections
    (fun connection =>
       try_except (send connection PingPacket) is_IOError (_disconnect connection))
    used (List.length pre) (List.length rest) s
  = (with_net (ping_all rest) s, Ok tt).
Proof.
  induction rest as [|v rest IH]; intros pre s Hvals Hused Hh.
  - simpl. rewrite Hused, Nat.eqb_refl. destruct s; reflexivity.
  - simpl in Hh. apply andb_true_iff in Hh. destruct Hh as [Hv Hrest].
    apply negb_true_iff in Hv.
    cbn [for_each_live List.length]. rewrite Hused, Nat.eqb_refl.
    rewrite Hvals, nth_error_middle.
    unfold bind at 1, try_except, send. rewrite Hv.
    replace (S (List.length pre)) with (List.length (pre ++ [v])) by (rewrite length_app; simpl; lia).
    rewrite IH.
    + destruct s; reflexivity.
    + cbn [_connections with_net]. rewrite Hvals, <- app_assoc. reflexivity.
    + exact Hused.
    + exact Hrest.
Qed.

Lemma net_sent_ping_all (cs : list Connection) : forall n,
  net_sent (ping_all cs n) =
  (net_sent n ++ map (fun c => (conn_sock c, PingPacket)) cs)%list.
Proof.
  unfold ping_all. induction cs as [|c cs IH]; intros n; simpl.
  - now rewrite app_nil_r.
  - rewrite IH. simpl. now rewrite <- app_assoc.
Qed.

(** X12.  A keep-alive pass over sessions whose transports are all healthy
    returns normally, having queued one ping for every session of the
    connection table -- logged in or not -- in table order, and nothing
    else. *)
Theorem keep_alive_pings_every_session (s : Server) :
  forallb (fun c => negb (is_broken s c)) (values (_connections s)) = true ->
  keep_alive_pass s = (with_net (ping_all (values (_connections s))) s, Ok tt) /\
  net_sent (net (fst (keep_alive_pass s))) =
    (net_sent (net s) ++
     map (fun c => (conn_sock c, PingPacket)) (values (_connections s)))%list.
Proof.
  intros Hh.
  assert (Hpass : keep_alive_pass s =
                  (with_net (ping_all (values (_connections s))) s, Ok tt)).
  { unfold keep_alive_pass.
    replace (List.length (_connections s)) with (List.length (values (_connections s))) at 2
      by (unfold values; apply length_map).
    apply (@keep_alive_from_healthy (List.length (_connections s))
             (values (_connections s)) [] s); auto. }
  split; [exact Hpass|]. rewrite Hpass. cbn [fst net with_net].
  apply net_sent_ping_all.
Qed.

Lemma keep_alive_pings_every_session_witness :
  let s := run [Accept (sample_address 1) 1; AddPlayer (session 1) [] "al";
                Accept (sample_address 2) 2] (fresh sample_config) in
  net_sent (net (fst (keep_alive_pass s))) = [(1, PingPacket); (2, PingPacket)].
Proof.
  intros s. exact (proj2 (@keep_alive_pings_every_session s eq_refl)).
Defined.

Lemma keep_alive_from_broken used (c : Connection) (behind : list Connection) :
  forall (ahead pre : list Connection) s,
  values (_connections s) = (pre ++ ahead ++ c :: behind)%list ->
  List.length (_connections s) = used ->
  forallb (fun c => negb (is_broken s c)) ahead = true ->
  is_broken s c = true ->
  falsy (get_address c) = false ->
  for_each_live _connections
    (fun connection =>
       try_except (send connection PingPacket) is_IOError (_disconnect connection))
    used (List.length pre) (List.length (ahead ++ c :: behind)) s
  = (with_net (ping_all ahead) s, Raise TypeError).
Proof.
  induction ahead as [|v ahead IH]; intros pre s Hvals Hused Hh Hb Hf.
  - cbn [app List.length for_each_live]. rewrite Hused, Nat.eqb_refl.
    cbn [app] in Hvals. rewrite Hvals, nth_error_middle.
    unfold bind at 1. rewrite try_send_broken by exact Hb.
    rewrite _disconnect_raises by exact Hf. destruct s; reflexivity.
  - simpl in Hh. apply andb_true_iff in Hh. destruct Hh as [Hv Hrest].
    apply negb_true_iff in Hv.
    cbn [app List.length for_each_live]. rewrite Hused, Nat.eqb_refl.
    cbn [app] in Hvals. rewrite Hvals, nth_error_middle.
    unfold bind at 1, try_except, send. rewrite Hv.
    replace (S (List.length pre)) with (List.length (pre ++ [v]))
      by (rewrite length_app; simpl; lia).
    rewrite IH.
    + destruct s; reflexivity.
    + cbn [_connections with_net]. rewrite Hvals, <- app_assoc. reflexivity.
    + exact Hused.
    + exact Hrest.
    + exact Hb.
    + exact Hf.
Qed.

(** X13.  In every state a server reaches, a keep-alive pass over a
    connection table in which the transport of some session is broken does
    not complete.  The sessions ahead of the first broken one are pinged; the
    ping to the broken one fails, the [_disconnect] of it raises [TypeError]
    at its log line, and the pass ends with that exception: the broken
    session stays in the connection table, and the sessions behind it get no
    ping. *)
Theorem keep_alive_raises_on_broken_session (config : Config) (ops : list Op)
    (ahead behind : list Connection) (c : Connection) :
  let s := run ops (fresh config) in
  values (_connections s) = (ahead ++ c :: behind)%list ->
  forallb (fun c => negb (is_broken s c)) ahead = true ->
  is_broken s c = true ->
  keep_alive_pass s = (with_net (ping_all ahead) s, Raise TypeError) /\
  net_sent (net (fst (keep_alive_pass s))) =
    (net_sent (net s) ++ map (fun c => (conn_sock c, PingPacket)) ahead)%list /\
  _connections (fst (keep_alive_pass s)) = _connections s.
Proof.
  intros s Hvals Hh Hb.
  assert (Hf : falsy (get_address c) = false).
  { assert (Hinv : In c (values (_connections s)))
      by (rewrite Hvals; apply in_or_app; right; now left).
    unfold values in Hinv. apply in_map_iff in Hinv.
    destruct Hinv as ([a c'] & Heq & Hin). simpl in Heq. subst c'.
    destruct (table_sound_run config ops _ _ Hin) as [Haddr Hfa]. now rewrite Haddr. }
  assert (Hpass : keep_alive_pass s = (with_net (ping_all ahead) s, Raise TypeError)).
  { unfold keep_alive_pass.
    pose proof (@keep_alive_from_broken (List.length (_connections s)) c behind
                  ahead [] s Hvals eq_refl Hh Hb Hf) as Hrun.
    cbn [List.length app] in Hrun.
    assert (Hlen : List.length (_connections s) = List.length (ahead ++ c :: behind)%list).
    { rewrite <- Hvals. unfold values. now rewrite length_map. }
    rewrite <- Hlen in Hrun. exact Hrun. }
  rewrite Hpass. cbn [fst net with_net _connections].
  rewrite net_sent_ping_all. auto.
Qed.

Lemma keep_alive_raises_on_broken_session_witness :
  let ops := [Accept (sample_address 1) 1; AddPlayer (session 1) [] "al";
              Accept (sample_address 2) 2; Accept (sample_address 3) 3;
              Break (session 2)] in
  let s := run ops (fresh sample_config) in
  snd (keep_alive_pass s) = Raise TypeError /\
  net_sent (net (fst (keep_alive_pass s))) = [(1, PingPacket)] /\
  keys (_connections (fst (keep_alive_pass s))) =
    [Some (sample_address 1); Some (sample_address 2); Some (sample_address 3)].
Proof.
  intros ops s.
  destruct (@keep_alive_raises_on_broken_session sample_config ops
              [session 1] [session 3] (session 2) eq_refl eq_refl eq_refl)
    as (Hpass & Hsent & Hconn).
  fold s in Hpass, Hsent, Hconn.
  rewrite Hsent, Hconn, Hpass. repeat split.
Defined.

(** ** Saving the world and loading it again *)

Section SaveLoadFacts.
Variable World : Type.
Variable encode : World -> result (list Byte.byte).
Variable from_save : list Byte.byte -> result World.
Variable new_world : World.
Variable repr : exn -> string.
Variable format_exc : exn -> string.


(** X15.  [save_world] opens the save file for writing before it encodes the
    world.  When the encoding then fails, the failure is passed on and the
    save file is left empty: what had been saved before is lost. *)
Theorem failed_save_empties_the_file (st : Store World) (fs : Files) (w : World)
    (ex : exn) :
  _world st = Some w ->
  ~ In (_save_file st) (unwritable fs) ->
  encode w = Fails ex ->
  snd (save_world encode st fs) = Fails ex /\
  read_from (snd (fst (save_world encode st fs))) (_save_file st) = Returns [].
Proof.
  intros Hw Hwritable Henc.
  unfold save_world, open_wb. cbn [_save_file logging _world].
  destruct (in_dec string_dec (_save_file st) (unwritable fs)); [contradiction|].
  rewrite Hw, Henc. cbn [fst snd]. split; [reflexivity|].
  unfold read_from. cbn [contents]. now rewrite get_set_same.
Qed.

End SaveLoadFacts.


Lemma failed_save_empties_the_file_witness :
  let st := mkStore "world.save" (Some []) [] in
  let fs := mkFiles [("world.save", [Byte.x01; Byte.x02])] [] in
  read_from fs "world.save" = Returns [Byte.x01; Byte.x02] /\
  read_from (snd (fst (save_world sample_encode st fs))) "world.save" = Returns [].
Proof.
  intros st fs. split; [reflexivity|].
  refine (proj2 (@failed_save_empties_the_file _ sample_encode st fs []
                   (ValueError "empty world") eq_refl _ eq_refl)).
  simpl. tauto.
Defined.

(** ** The hard cap of [__init__] *)

(** X17.  On every server that [__init__] lets be constructed -- it refuses a
    capacity above 255 with a [ValueError] -- at most 255 players whose name
    is no operator's are registered at any moment of any run. *)
Theorem constructed_server_guest_bound (config : Config) (s0 : Server) (ops : list Op) :
  init config = Ok s0 ->
  (Z.of_nat (List.length (guests (run ops s0))) <= 255)%Z.
Proof.
  unfold init. destruct (cfg_max_players config >? 255)%Z eqn:Hcap; [discriminate|].
  intros Hinit. inversion Hinit; subst s0.
  assert (Hmax : (cfg_max_players config <= 255)%Z).
  { destruct (Z.gtb_spec (cfg_max_players config) 255); [discriminate|lia]. }
  assert (H0 : _max_players (fresh config) = cfg_max_players config /\
               (Z.of_nat (List.length (guests (fresh config))) <=
                Z.max 0 (cfg_max_players config))%Z) by (split; [reflexivity|simpl; lia]).
  assert (Hrun : (Z.of_nat (List.length (guests (run ops (fresh config)))) <=
                  Z.max 0 (cfg_max_players config))%Z).
  { unfold run. revert H0. generalize (fresh config).
    induction ops as [|o ops IH]; intros s Hs; simpl; [apply Hs|].
    apply IH. now apply guests_within_capacity_run_op. }
  lia.
Qed.

Lemma constructed_server_guest_bound_witness :
  (Z.of_nat (List.length (guests (run (crowd 4) (fresh capped_config)))) <= 255)%Z.
Proof.
  exact (@constructed_server_guest_bound capped_config (fresh capped_config)
           (crowd 4) eq_refl).
Defined.
